(** * Y-branch splitter: the geometry function and the parameter file

    A shallow embedding of [y_branch_opt_2D.py].  The script defines the
    outline of a silicon taper as a function [splitter] of ten spline
    ordinates, loads a previous parameter vector from a text file, hands
    everything to an external optimizer and saves the best vector.

    Numbers.  Python floats are idealised as exact rationals in canonical
    form ([Qc]): arithmetic is exact, equality is Leibniz equality, and no
    rounding is modelled.

    External code.  NumPy's [linspace], [concatenate], [min], [max] and the
    list operations are modelled directly.  SciPy's [interp1d] is modelled in
    two layers: the argument checks it performs (equal lengths, range of the
    evaluation points) are part of [interp1d] and [interp1d_call] below, while
    the spline itself is a parameter [spline] of the development.  Module
    [CubicSpline] gives the instance used for concrete runs and for the
    sign of the area: the not-a-knot cubic spline that
    [interp1d(kind='cubic')] computes, in exact arithmetic.  The optimizer is a parameter [optimization_run] of the
    script.

    Arrays.  A parameter vector is a list.  What [np.loadtxt] returns is an
    [ndarray] of dimension 0, 1 or 2, as the layout of the file has it, and
    [splitter_array] is [splitter] on such an array.

    Objects.  The definitions up to [script_with_export] describe the script
    while the two module-level arrays hold what lines 47-48 put there.  The
    last part of the model treats them as objects that can be written in
    place, with the external code as a client that calls the geometry
    function and writes into the array it was handed. *)

From Stdlib Require Import QArith Qcanon Lia Lqa Ascii Sorted.
From stdpp Require Import base numbers list strings gmap sorting.

Local Open Scope Qc_scope.

(** * The model *)

(** ** Numbers *)

(** [dec m e] is the decimal literal [m * 10^-e]; [1.0e-6] is [dec 1 6] and
    [0.01e-6] is [dec 1 8]. *)
Definition dec (m : Z) (e : Z) : Qc := Q2Qc (m # Z.to_pos (10 ^ e)).

Definition of_nat (n : nat) : Qc := Qc_of_Z (Z.of_nat n).

(** ** Errors

    The exceptions the script can meet: the [ValueError]s of [concatenate]
    and of [interp1d], and the ways in which [loadtxt] fails. *)
Inductive error : Type :=
  | ZeroDimensional    (* zero-dimensional arrays cannot be concatenated *)
  | DimensionMismatch  (* all the input arrays must have same number of dimensions *)
  | LengthMismatch     (* x and y arrays must be equal in length *)
  | TooFewPoints       (* a cubic spline needs at least 4 knots *)
  | BelowRange         (* a value in x_new is below the interpolation range *)
  | AboveRange         (* a value in x_new is above the interpolation range *)
  | FileNotFound       (* loadtxt: no such file *)
  | BadNumber          (* loadtxt: could not convert string to float *)
  | ColumnMismatch.    (* loadtxt: the number of columns changed *)

Inductive result (A : Type) : Type :=
  | Ok (a : A)
  | Raise (e : error).
Arguments Ok {A} a.
Arguments Raise {A} e.

Global Instance result_bind : MBind result := λ A B k m,
  match m with
  | Ok a => k a
  | Raise e => Raise e
  end.

(** ** NumPy *)

(** [y[-1] = v] on a non-empty array. *)
Definition set_last (y : list Qc) (v : Qc) : list Qc :=
  match y with
  | [] => []
  | _ :: _ => take (length y - 1) y ++ [v]
  end.

(** [numpy.linspace(start, stop, num)] with [endpoint=True]: the grid is
    [arange(0, num) * step + start] with [step = (stop - start) / (num - 1)],
    and the last entry is then overwritten with [stop]. *)
Definition linspace (start stop : Qc) (num : nat) : list Qc :=
  let div := (num - 1)%nat in
  let delta := stop - start in
  let y := of_nat <$> seq 0 num in
  let y :=
    if decide (0 < div)%nat then
      let step := delta / of_nat div in
      if decide (step = 0) then (λ i, i / of_nat div * delta) <$> y
      else (λ i, i * step) <$> y
    else (λ i, i * delta) <$> y in
  let y := (λ v, v + start) <$> y in
  if decide (1 < num)%nat then set_last y stop else y.

(** [min] and [max] of a non-empty array (the first extremal element); the
    script never applies them to an empty one, where Python raises. *)
Definition minimum (l : list Qc) : Qc :=
  match l with
  | [] => 0
  | x :: l' => fold_left (λ m y, if decide (y < m) then y else m) l' x
  end.

Definition maximum (l : list Qc) : Qc :=
  match l with
  | [] => 0
  | x :: l' => fold_left (λ m y, if decide (m < y) then y else m) l' x
  end.

(** An array of dimension 0, 1 or 2; a two-dimensional array is given by
    its rows. *)
Inductive ndarray : Type :=
  | Array0 (x : Qc)
  | Array1 (v : list Qc)
  | Array2 (rows : list (list Qc)).

(** The entries of an array in row-major order, [a.flatten()]. *)
Definition entries (a : ndarray) : list Qc :=
  match a with
  | Array0 x => [x]
  | Array1 v => v
  | Array2 rows => concat rows
  end.


(** [np.concatenate(([lo], a, [hi]))]: the three pieces must have the same
    dimension, which is one for the two lists.  The result is the middle
    piece, to be put between the two ends. *)
Definition one_dimensional (a : ndarray) : result (list Qc) :=
  match a with
  | Array0 _ => Raise ZeroDimensional
  | Array1 v => Ok v
  | Array2 _ => Raise DimensionMismatch
  end.

(** ** The module-level arrays of the script *)

Definition initial_points_x : list Qc := linspace (- dec 1 6) (dec 1 6) 10.
Definition initial_points_y : list Qc :=
  linspace (dec 25 8) (dec 6 7) (length initial_points_x).

Definition n_interpolation_points : nat := 100.

(** [bounds = [(0.2e-6, 0.8e-6)] * initial_points_y.size] *)
Definition bounds : list (Qc * Qc) :=
  replicate (length initial_points_y) (dec 2 7, dec 8 7).

(** A parameter vector is within the bounds when every entry lies between
    the two ends of its pair. *)
Definition within_bounds (params : list Qc) : Prop :=
  Forall2 (λ p b, b.1 ≤ p ∧ p ≤ b.2) params bounds.

(** ** The geometry function *)

Section Geometry.

(** [spline x y t]: the value at [t] of the cubic spline that SciPy fits
    through the knots [(x_i, y_i)]. *)
Variable spline : list Qc → list Qc → Qc → Qc.

(** The interpolator object: [interp1d] stores its knots. *)
Record interpolator : Type := Interp1d { interp_x : list Qc; interp_y : list Qc }.

(** [sp.interpolate.interp1d(x, y, kind='cubic')].  SciPy also sorts the
    knots by abscissa; the script passes them in increasing order. *)
Definition interp1d (x y : list Qc) : result interpolator :=
  if decide (length x = length y) then
    if decide (4 ≤ length x)%nat then Ok (Interp1d x y) else Raise TooFewPoints
  else Raise LengthMismatch.

(** [interpolator(x_new)] with the default [bounds_error]: evaluation
    outside the range of the knots raises. *)
Definition interp1d_call (f : interpolator) (x_new : list Qc) : result (list Qc) :=
  if decide (Exists (λ t, t < minimum (interp_x f)) x_new) then Raise BelowRange
  else if decide (Exists (λ t, maximum (interp_x f) < t) x_new) then Raise AboveRange
  else Ok (spline (interp_x f) (interp_y f) <$> x_new).

Definition points_x : list Qc :=
  [minimum initial_points_x - dec 1 8] ++ initial_points_x
    ++ [maximum initial_points_x + dec 1 8].

Definition points_y (params : list Qc) : list Qc :=
  [minimum initial_points_y] ++ params ++ [maximum initial_points_y].

Definition polygon_points_x : list Qc :=
  linspace (minimum points_x) (maximum points_x) n_interpolation_points.

Definition splitter (params : list Qc) : result (list (Qc * Qc)) :=
  interpolator ← interp1d points_x (points_y params);
  polygon_points_y ← interp1d_call interpolator polygon_points_x;
  let polygon_points_up := zip polygon_points_x polygon_points_y in
  let polygon_points_down :=
    (λ '(x, y), (x, - y)) <$> zip polygon_points_x polygon_points_y in
  Ok (reverse polygon_points_up ++ polygon_points_down).

(** The sampled ordinates, when the interpolator does not raise. *)
Definition polygon_points_y (params : list Qc) : list Qc :=
  spline points_x (points_y params) <$> polygon_points_x.

(** [splitter] on an array of any dimension.  Line 53 cannot fail, line 54
    accepts one-dimensional [params] only, and the rest is [splitter] as
    above. *)
Definition splitter_array (a : ndarray) : result (list (Qc * Qc)) :=
  params ← one_dimensional a;
  splitter params.

End Geometry.

(** The contract of an interpolating spline: on each knot its value is the
    ordinate of the knot. *)
Definition Interpolates (spline : list Qc → list Qc → Qc → Qc) : Prop :=
  ∀ x y i, Sorted Qclt x → length x = length y → (4 ≤ length x)%nat →
    (i < length x)%nat → spline x y (nth i x 0) = nth i y 0.

(** ** The cubic spline of [interp1d(kind='cubic')]

    SciPy builds the interpolating cubic spline with not-a-knot end
    conditions: a piecewise cubic through the knots with two continuous
    derivatives whose third derivative is also continuous at the second and
    at the second-to-last knot.  It is given here in moment form: the second
    derivatives [m_i] at the knots solve a linear system, and the value on
    the segment [[x_i, x_(i+1)]] is a fixed combination of [y_i], [y_(i+1)],
    [m_i] and [m_(i+1)]. *)
Module CubicSpline.

Definition vector : Type := list Qc.
Definition matrix : Type := list vector.

Definition vadd (u v : vector) : vector := zip_with Qcplus u v.
Definition vscale (c : Qc) (u : vector) : vector := Qcmult c <$> u.
Definition dot (u v : vector) : Qc := foldr Qcplus 0 (zip_with Qcmult u v).
Definition matvec (M : matrix) (v : vector) : vector := (λ r, dot r v) <$> M.

(** The [j]-th unit vector of length [n], and the identity matrix. *)
Definition unit (n j : nat) : vector :=
  (λ i, if decide (i = j) then 1 else 0) <$> seq 0 n.
Definition identity (n : nat) : matrix := unit n <$> seq 0 n.

(** [f] is linear on vectors of length [n]. *)
Definition Lin (n : nat) (f : vector → Qc) : Prop :=
  (∀ u v, length u = n → length v = n → f (vadd u v) = f u + f v)
  ∧ (∀ c u, length u = n → f (vscale c u) = c * f u).

(** *** Gauss-Jordan elimination *)

(** [r - f * p], entry by entry. *)
Definition row_sub (f : Qc) (p r : vector) : vector :=
  zip_with (λ a b, a - f * b) r p.

(** Clear column [c] of row [r] with the normalised pivot row [p]. *)
Definition eliminate (c : nat) (p r : vector) : vector :=
  row_sub (nth c r 0) p r.

(** The first row with a non-zero entry in column [c], and the others. *)
Fixpoint extract_pivot (c : nat) (rows : matrix) : option (vector * matrix) :=
  match rows with
  | [] => None
  | r :: rows' =>
      if decide (nth c r 0 = 0) then
        match extract_pivot c rows' with
        | Some (p, rest) => Some (p, r :: rest)
        | None => None
        end
      else Some (r, rows')
  end.

(** One pass per column: [finished] holds the rows whose pivot is set,
    [todo] the others. *)
Fixpoint gauss_jordan (cols : list nat) (finished todo : matrix) : option matrix :=
  match cols with
  | [] => Some finished
  | c :: cols' =>
      match extract_pivot c todo with
      | None => None
      | Some (p, rest) =>
          let p' := vscale (/ nth c p 0) p in
          gauss_jordan cols' ((eliminate c p' <$> finished) ++ [p'])
                       (eliminate c p' <$> rest)
      end
  end.

(** The inverse of a square matrix, [None] when it is singular. *)
Definition inverse (A : matrix) : option matrix :=
  let n := length A in
  match gauss_jordan (seq 0 n) [] (zip_with app A (identity n)) with
  | Some rows => Some (drop n <$> rows)
  | None => None
  end.

(** *** The not-a-knot system *)

(** Width of segment [i]. *)
Definition h (x : vector) (i : nat) : Qc := nth (S i) x 0 - nth i x 0.

(** Entry [(i, j)] of the system for [n] knots.  Interior rows state that
    the first derivative is continuous at knot [i]; the first and the last
    row state that the third derivative is continuous at knot [1] and at
    knot [n - 2]. *)
Definition coefficient (x : vector) (n i j : nat) : Qc :=
  if decide (i = 0)%nat then
    if decide (j = 0)%nat then - h x 1
    else if decide (j = 1)%nat then h x 0 + h x 1
    else if decide (j = 2)%nat then - h x 0
    else 0
  else if decide (i = n - 1)%nat then
    if decide (j = n - 3)%nat then - h x (n - 2)
    else if decide (j = n - 2)%nat then h x (n - 3) + h x (n - 2)
    else if decide (j = n - 1)%nat then - h x (n - 3)
    else 0
  else
    if decide (j = i - 1)%nat then h x (i - 1)
    else if decide (j = i)%nat then (1 + 1) * (h x (i - 1) + h x i)
    else if decide (j = i + 1)%nat then h x i
    else 0.

Definition system (x : vector) : matrix :=
  let n := length x in
  (λ i, coefficient x n i <$> seq 0 n) <$> seq 0 n.

Definition rhs_entry (x y : vector) (n i : nat) : Qc :=
  if decide (i = 0 ∨ i = n - 1)%nat then 0
  else of_nat 6 * ((nth (S i) y 0 - nth i y 0) / h x i
                   - (nth i y 0 - nth (i - 1) y 0) / h x (i - 1)).

Definition rhs (x y : vector) : vector :=
  let n := length x in rhs_entry x y n <$> seq 0 n.

(** Second derivatives of the spline at the knots. *)
Definition moments (x y : vector) : vector :=
  match inverse (system x) with
  | Some Ainv => matvec Ainv (rhs x y)
  | None => []
  end.

(** *** Evaluation *)

(** Index of the segment used for [t], given the knots after the first:
    the number of leading knots, the last excepted, that lie left of [t]. *)
Fixpoint locate (xs : vector) (t : Qc) : nat :=
  match xs with
  | x1 :: (_ :: _) as rest => if decide (x1 < t) then S (locate rest t) else 0%nat
  | _ => 0%nat
  end.

Definition segment (x : vector) (t : Qc) : nat := locate (tail x) t.

Definition cube (a : Qc) : Qc := a * a * a.

Definition eval (x y m : vector) (t : Qc) : Qc :=
  let i := segment x t in
  let a := (nth (S i) x 0 - t) / h x i in
  let b := (t - nth i x 0) / h x i in
  a * nth i y 0 + b * nth (S i) y 0
  + ((cube a - a) * nth i m 0 + (cube b - b) * nth (S i) m 0)
    * (h x i * h x i) / of_nat 6.

(** The fit is done once, the evaluation once per point. *)
Definition spline (x y : vector) : Qc → Qc :=
  let m := moments x y in λ t, eval x y m t.

End CubicSpline.

(** ** Files, the working directory and the console *)

(** What a text file holds.  [FloatText lines]: numbers separated by white
    space, given line by line as [loadtxt] sees them once comments are
    removed; an empty file has no line.  [OtherText s]: a text in which
    some word is not a number. *)
Inductive file_data : Type :=
  | FloatText (lines : list (list Qc))
  | OtherText (s : string).

(** Directories are lists of names from the root; [files] maps the full
    name of a file to its contents. *)
Record World : Type := mkWorld {
  cwd : list string;
  files : gmap (list string) file_data;
  stdout : list string
}.

(** The segments of a relative path, separated by ["/"]. *)
Fixpoint split_path (s : string) : list string :=
  match s with
  | EmptyString => [EmptyString]
  | String c s' =>
      if decide (c = "/"%char) then EmptyString :: split_path s'
      else match split_path s' with
           | [] => [String c EmptyString]
           | seg :: segs => String c seg :: segs
           end
  end.

Definition enter (dir : list string) (seg : string) : list string :=
  if decide (seg = "..") then take (length dir - 1) dir
  else if decide (seg = "." ∨ seg = "") then dir
  else dir ++ [seg].

(** The full name that a relative path denotes in directory [dir]. *)
Definition resolve (dir : list string) (path : string) : list string :=
  fold_left enter (split_path path) dir.

(** The rows that [loadtxt] reads: blank lines are skipped. *)
Definition nonblank (lines : list (list Qc)) : list (list Qc) :=
  filter (λ r, r ≠ []) lines.

(** All rows have as many columns as the first. *)
Definition rectangular (rows : list (list Qc)) : Prop :=
  Forall (λ r, length r = length (default [] (head rows))) rows.

Global Instance rectangular_dec rows : Decision (rectangular rows).
Proof. unfold rectangular. apply _. Defined.

(** The array of a table of numbers with [ndmin=0]: axes of length one are
    removed.  One number gives an array of dimension 0, one row or one
    column a vector, anything larger a two-dimensional array; no row gives
    the empty vector. *)
Definition squeeze (rows : list (list Qc)) : ndarray :=
  match rows with
  | [] => Array1 []
  | [[x]] => Array0 x
  | [r] => Array1 r
  | _ =>
      if decide (Forall (λ r, length r = 1%nat) rows) then Array1 (concat rows)
      else Array2 rows
  end.

(** [numpy.loadtxt(fname)] *)
Definition loadtxt (fname : string) (w : World) : result ndarray :=
  match files w !! resolve (cwd w) fname with
  | None => Raise FileNotFound
  | Some (OtherText _) => Raise BadNumber
  | Some (FloatText lines) =>
      if decide (rectangular (nonblank lines)) then Ok (squeeze (nonblank lines))
      else Raise ColumnMismatch
  end.

(** The lines that [savetxt] writes for a vector: one number on each. *)
Definition column (v : list Qc) : list (list Qc) := (λ x, [x]) <$> v.

(** [numpy.savetxt(fname, v)] *)
Definition savetxt (fname : string) (v : list Qc) (w : World) : World :=
  mkWorld (cwd w) (<[resolve (cwd w) fname := FloatText (column v)]> (files w))
    (stdout w).

Definition print (msg : string) (w : World) : World :=
  mkWorld (cwd w) (files w) (stdout w ++ [msg]).

(** ** The script *)

(** The arguments the script passes to [FunctionDefinedPolygon]; the two
    materials play no role here and are left out. *)
Record FunctionDefinedPolygon : Type := mkPolygon {
  func : ndarray → result (list (Qc * Qc));
  initial_params : ndarray;
  polygon_bounds : list (Qc * Qc);
  z : Qc;
  depth : Qc;
  edge_precision : nat;
  dx : Qc
}.

Definition notice : string :=
  "Couldn't find the file containing 2D optimization parameters. Starting with default parameters".

Section Script.

Variable spline : list Qc → list Qc → Qc → Qc.

(** [Optimization(...).run()]: the external optimizer.  It returns the
    best figure of merit with the best parameter vector, and may change
    files, the working directory and the console on the way. *)
Variable optimization_run :
  FunctionDefinedPolygon → World → (Qc * list Qc) * World.

(** Lines 74-78: [try: prev_results = np.loadtxt(...) except: ...]. *)
Definition load_prev_results (w : World) : ndarray * World :=
  match loadtxt "2D_parameters.txt" w with
  | Ok a => (a, w)
  | Raise _ => (Array1 initial_points_y, print notice w)
  end.

(** Lines 86-93. *)
Definition make_polygon (prev_results : ndarray) : FunctionDefinedPolygon :=
  mkPolygon (splitter_array spline) prev_results bounds 0 (dec 220 9) 5 (dec 1 9).

(** The script up to the saving of the parameters (line 128); the export
    to GDS that follows goes through the CAD session and touches none of
    the state modelled here. *)
Definition script (w : World) : World :=
  let '(prev_results, w1) := load_prev_results w in
  let polygon := make_polygon prev_results in
  let '(results, w2) := optimization_run polygon w1 in
  savetxt "../2D_parameters.txt" results.2 w2.

(** The best vector the run produced. *)
Definition best_params (w : World) : list Qc :=
  let '(prev_results, w1) := load_prev_results w in
  (optimization_run (make_polygon prev_results) w1).1.2.

(** The world in which the optimizer returns, just before the saving. *)
Definition world_after_run (w : World) : World :=
  let '(prev_results, w1) := load_prev_results w in
  (optimization_run (make_polygon prev_results) w1).2.

End Script.

(** The world in which a later run of the script starts: the directory the
    first run was started in, with the files the first run left. *)
Definition later_run (start finished : World) : World :=
  mkWorld (cwd start) (files finished) [].

(** Two optimizers for concrete runs.  The first returns [best] and leaves
    the world as it is; the second returns [best] from a new subfolder [d]
    of the directory it was called in. *)
Definition run_in_place (best : list Qc) :
    FunctionDefinedPolygon → World → (Qc * list Qc) * World :=
  λ _ w, ((0, best), w).

Definition run_in_subfolder (d : string) (best : list Qc) :
    FunctionDefinedPolygon → World → (Qc * list Qc) * World :=
  λ _ w, ((0, best), mkWorld (cwd w ++ [d]) (files w) (stdout w)).

(** A project directory without a parameter file; one whose parameter file
    holds three numbers on a line, one of them negative; one whose file
    holds a single number; and one whose file holds two lines of five
    numbers. *)
Definition project : World := mkWorld ["y branch"] ∅ [].

Definition project_with_file : World :=
  mkWorld ["y branch"]
    {[ ["y branch"; "2D_parameters.txt"] := FloatText [[dec 9 7; 0; - dec 1 6]] ]} [].


Definition project_with_table : World :=
  mkWorld ["y branch"]
    {[ ["y branch"; "2D_parameters.txt"] :=
         FloatText [replicate 5 (dec 3 7); replicate 5 (dec 4 7)] ]} [].

(** ** Signed area *)

(** [cross p q] is the term [x_p * y_q - x_q * y_p] of the shoelace formula. *)
Definition cross (p q : Qc * Qc) : Qc := p.1 * q.2 - q.1 * p.2.

(** Sum of the cross terms along an open path that starts at [p]. *)
Fixpoint path_sum (p : Qc * Qc) (l : list (Qc * Qc)) : Qc :=
  match l with
  | [] => 0
  | q :: l' => cross p q + path_sum q l'
  end.

(** Twice the signed area of the closed polygon [l]: the shoelace sum over
    all edges, the closing edge included. *)
Definition shoelace (l : list (Qc * Qc)) : Qc :=
  match l with
  | [] => 0
  | p :: l' => path_sum p (l' ++ [p])
  end.

Definition signed_area (l : list (Qc * Qc)) : Qc := shoelace l / (1 + 1).

(** A polygon is ordered counter-clockwise when its signed area is positive. *)
Definition counter_clockwise (l : list (Qc * Qc)) : Prop := 0 < signed_area l.

(** The last point of the path [p :: l]. *)
Definition path_end (p : Qc * Qc) (l : list (Qc * Qc)) : Qc * Qc :=
  fold_left (λ _ q, q) l p.

(** Trapezoid sum along the path that starts at [p]: the terms
    [(x_(k+1) - x_k) * (y_k + y_(k+1))]. *)
Fixpoint trapezoid (p : Qc * Qc) (l : list (Qc * Qc)) : Qc :=
  match l with
  | [] => 0
  | q :: l' => (q.1 - p.1) * (p.2 + q.2) + trapezoid q l'
  end.

Definition trapezoid_sum (l : list (Qc * Qc)) : Qc :=
  match l with
  | [] => 0
  | p :: l' => trapezoid p l'
  end.

(** The inverse of the system of the knots of [splitter]. *)
Definition knot_inverse : CubicSpline.matrix :=
  default [] (CubicSpline.inverse (CubicSpline.system points_x)).

(** Unevenly spaced knots and a cubic polynomial, to try the spline on. *)
Definition sample_knots : list Qc :=
  [0; Q2Qc (1 # 3); 1; of_nat 2; Q2Qc (5 # 2); of_nat 4].

Definition sample_cubic (t : Qc) : Qc := t * t * t - of_nat 2 * t + 1.

(** The trapezoid sum under the curve sampled by [splitter] with the cubic
    spline, as a function of the twelve knot ordinates. *)
Definition outline_area (ys : list Qc) : Qc :=
  trapezoid_sum
    (zip polygon_points_x (CubicSpline.spline points_x ys <$> polygon_points_x)).

Definition total (c : list Qc) : Qc := foldr Qcplus 0 c.

(** [outline_area] when the inverse [Ainv] of the system of the knots is
    given. *)
Definition outline_area_with (Ainv : CubicSpline.matrix) (ys : list Qc) : Qc :=
  let m := CubicSpline.matvec Ainv (CubicSpline.rhs points_x ys) in
  trapezoid_sum
    (zip polygon_points_x (CubicSpline.eval points_x ys m <$> polygon_points_x)).

(** The values of [outline_area] on the twelve unit vectors, computed with
    the system inverted only once. *)
Definition area_coefficients : list Qc :=
  match CubicSpline.inverse (CubicSpline.system points_x) with
  | Some Ainv => outline_area_with Ainv <$> (CubicSpline.unit 12 <$> seq 0 12)
  | None => outline_area <$> (CubicSpline.unit 12 <$> seq 0 12)
  end.

(** What the area needs of twelve coefficients [c]: those of the ten
    parameters are not negative, and the area is positive when every
    parameter is at the lower bound [0.2e-6]. *)
Definition coefficients_ok (c : list Qc) : bool :=
  forallb (λ a, bool_decide (0 ≤ a)) (take 10 (drop 1 c))
  && bool_decide (0 < dec 25 8 * nth 0 c 0
                      + dec 2 7 * total (take 10 (drop 1 c))
                      + dec 6 7 * nth 11 c 0).

(** The parameter vector with every entry at the lower bound. *)
Definition lowest : list Qc := replicate 10 (dec 2 7).

(** ** The geometry in the words of the specification *)

Section GeometrySpec.

Variable spline : list Qc → list Qc → Qc → Qc.

(** The two fixed boundary points at the guide ends. *)
Definition boundary_left : Qc * Qc := (- dec 101 8, dec 25 8).
Definition boundary_right : Qc * Qc := (dec 101 8, dec 6 7).

(** The knots: the parameters at their abscissae, between the two
    boundary points. *)
Definition knots (params : list Qc) : list (Qc * Qc) :=
  [boundary_left] ++ zip initial_points_x params ++ [boundary_right].

(** [n] evenly spaced positions from [a] to [b]. *)
Definition evenly_spaced (a b : Qc) (n : nat) : list Qc :=
  (λ k, a + of_nat k * ((b - a) / of_nat (n - 1))) <$> seq 0 n.

Definition mirror (p : Qc * Qc) : Qc * Qc := (p.1, - p.2).

Definition splitter_spec (params : list Qc) : list (Qc * Qc) :=
  let curve := spline ((knots params).*1) ((knots params).*2) in
  let sampled := (λ x, (x, curve x)) <$>
                   evenly_spaced (boundary_left.1) (boundary_right.1) 100 in
  reverse sampled ++ (mirror <$> sampled).

End GeometrySpec.

Definition magnitude (y : Qc) : Qc := if decide (y < 0) then - y else y.

(** The end values read in the order of the returned array: in each half,
    the first point has an ordinate of magnitude [0.6e-6] and the last one
    an ordinate of magnitude [0.25e-6]. *)
Definition ends_in_array_order (polygon : list (Qc * Qc)) : Prop :=
  ∀ first last, (first, last) ∈ [(0, 99); (100, 199)]%nat →
    ∃ p q, polygon !! first = Some p ∧ polygon !! last = Some q
           ∧ magnitude p.2 = dec 6 7 ∧ magnitude q.2 = dec 25 8.

(** ** The export of the optimized structure *)

(** The calls the script makes on the CAD session [mode] (lines 143-154),
    in the order in which the session receives them. *)
Inductive mode_command : Type :=
  | ModeCd (dir : list string)
  | ModeBaseScript                              (* y_branch_init_(mode) *)
  | ModeAddPoly (vertices : list (Qc * Qc))
  | ModeSetNumber (property : string) (value : Qc)
  | ModeSetText (property : string) (value : string)
  | ModeSave (name : string)
  | ModeEval (code : string).

(** How a run of the whole script ends: the world it leaves, the calls the
    CAD session has received, and the exception that stopped it, if any. *)
Record outcome : Type := mkOutcome {
  final_world : World;
  session : list mode_command;
  exception : option error
}.

Section ExportModel.

Variable spline : list Qc → list Qc → Qc → Qc.
Variable optimization_run :
  FunctionDefinedPolygon → World → (Qc * list Qc) * World.

(** [str.format] on a float. *)
Variable format_float : Qc → string.

(** [depth = 220.0e-9] (line 83). *)
Definition layer_depth : Qc := dec 220 9.

(** Lines 131-141. *)
Definition gds_export_script : string :=
  "gds_filename = 'y_branch_2D.gds';" +:+
  "top_cell = 'model';" +:+
  ("layer_def = [1, " +:+ format_float (- layer_depth / (1 + 1)) +:+ ", "
     +:+ format_float (layer_depth / (1 + 1)) +:+ "];") +:+
  "n_circle = 64;" +:+
  "n_ring = 64;" +:+
  "n_custom = 64;" +:+
  "n_wg = 64;" +:+
  "round_to_nm = 1;" +:+
  "grid = 1e-9;" +:+
  "max_objects = 10000;" +:+
  "Lumerical_GDS_auto_export;".

(** The calls that follow [mode.addpoly] (lines 147-154). *)
Definition finish_commands : list mode_command :=
  [ModeSetNumber "x" 0; ModeSetNumber "y" 0; ModeSetNumber "z" 0;
   ModeSetNumber "z span" layer_depth;
   ModeSetText "material" "Si: non-dispersive";
   ModeSave "y_branch_2D_FINAL";
   ModeEval gds_export_script].

(** The whole script: [example_directory] is the working directory at the
    start (line 36); the parameters are saved (line 128) before the session
    is opened; the argument of [mode.addpoly] is evaluated before the call,
    so an exception of [splitter] leaves the session after its second call.
    [input('Enter...')] writes its prompt to the console. *)
Definition script_with_export (w : World) : outcome :=
  let example_directory := cwd w in
  let saved := script spline optimization_run w in
  let best := best_params spline optimization_run w in
  match splitter spline best with
  | Ok vertices =>
      mkOutcome (print "Enter..." saved)
        ([ModeCd example_directory; ModeBaseScript; ModeAddPoly vertices]
           ++ finish_commands)
        None
  | Raise e =>
      mkOutcome saved [ModeCd example_directory; ModeBaseScript] (Some e)
  end.

End ExportModel.

(** ** The module-level arrays as objects

    [initial_points_x] and [initial_points_y] are NumPy arrays: objects that
    can be written in place.  [splitter] reads both at each call (lines
    53-54).  Line 78 binds [prev_results] to the array [initial_points_y]
    itself, not to a copy of it, and line 87 hands [prev_results] to the
    external code as [initial_params]. *)







Section Calls.

Variable spline : list Qc → list Qc → Qc → Qc.




End Calls.




(** ** Tactics *)

(** Goals on the order of [Qc] are moved to [Q], where [lra] applies. *)
Ltac qc_to_q :=
  repeat match goal with
  | H : @eq Qc _ _ |- _ => apply (f_equal this) in H
  end;
  try match goal with |- @eq Qc _ _ => apply Qc_is_canon end;
  unfold Qcle, Qclt, Qcminus, Qcdiv, Qcplus, Qcmult, Qcopp, Qcinv, Q2Qc in *;
  cbn [this] in *;
  rewrite ?Qred_correct in *.

Ltac qc_lra := qc_to_q; lra.

(** * Properties *)

(** ** Numbers and grids *)

Lemma of_nat_nonneg n : 0 ≤ of_nat n.
Proof. unfold of_nat. rewrite <-Z2Qc_inj_0, <-Z2Qc_inj_le. lia. Qed.

Lemma of_nat_le n m : (n ≤ m)%nat → of_nat n ≤ of_nat m.
Proof. intros. unfold of_nat. rewrite <-Z2Qc_inj_le. lia. Qed.

Lemma of_nat_pos n : (0 < n)%nat → 0 < of_nat n.
Proof. intros. unfold of_nat. rewrite <-Z2Qc_inj_0, <-Z2Qc_inj_lt. lia. Qed.

Lemma of_nat_0 : of_nat 0 = 0.
Proof. by apply Qc_is_canon. Qed.

Lemma length_set_last y v : length (set_last y v) = length y.
Proof.
  destruct y as [|a y]; [done|]. unfold set_last.
  rewrite length_app, length_take. simpl. lia.
Qed.

Lemma length_linspace start stop num : length (linspace start stop num) = num.
Proof.
  unfold linspace.
  assert (∀ (f g : Qc → Qc), length (g <$> (f <$> (of_nat <$> seq 0 num))) = num) as E.
  { intros. by rewrite !length_fmap, length_seq. }
  repeat case_decide; rewrite ?length_set_last; apply E.
Qed.

Lemma Forall_set_last (P : Qc → Prop) y v : Forall P y → P v → Forall P (set_last y v).
Proof.
  intros Hy Hv. destruct y as [|a y]; [done|]. unfold set_last.
  apply Forall_app; split; [by apply Forall_take | by constructor].
Qed.

(** A fraction [i / d] of a non-negative span lies within the span. *)
Lemma fraction_mul_range (i d delta : Qc) :
  0 ≤ i → i ≤ d → 0 < d → 0 ≤ delta →
  0 ≤ i * (delta / d) ∧ i * (delta / d) ≤ delta.
Proof.
  intros Hi Hid Hd Hdelta.
  assert (0 ≤ delta / d) as Hq.
  { unfold Qcdiv. apply Qcmult_nonneg_nonneg; [done|]. by apply Qclt_le_weak, Qcinv_pos. }
  split; [by apply Qcmult_nonneg_nonneg|].
  rewrite <-(Qcmult_div_r delta d) at 2 by (by apply not_eq_sym, Qclt_not_eq).
  by apply Qcmult_le_mono_nonneg_r.
Qed.

Lemma linspace_range start stop num :
  start ≤ stop →
  Forall (λ t, start ≤ t ∧ t ≤ stop) (linspace start stop num).
Proof.
  intros Hle. unfold linspace. cbv zeta.
  assert (0 ≤ stop - start) as Hdelta by qc_lra.
  assert (∀ g : Qc → Qc,
    (∀ i, (i < num)%nat → 0 ≤ g (of_nat i) ∧ g (of_nat i) ≤ stop - start) →
    Forall (λ t, start ≤ t ∧ t ≤ stop)
      ((λ v, v + start) <$> (g <$> (of_nat <$> seq 0 num)))) as Hgrid.
  { intros g Hg. rewrite <-!list_fmap_compose. apply Forall_fmap, Forall_forall.
    intros i [_ Hi]%elem_of_seq. simpl in *.
    destruct (Hg i Hi) as [H1 H2]. generalize dependent (g (of_nat i)).
    intros; qc_lra. }
  assert (Forall (λ t, start ≤ t ∧ t ≤ stop)
    ((λ v, v + start) <$>
      (if decide (0 < num - 1)%nat
       then if decide ((stop - start) / of_nat (num - 1) = 0)
            then (λ i, i / of_nat (num - 1) * (stop - start)) <$> (of_nat <$> seq 0 num)
            else (λ i, i * ((stop - start) / of_nat (num - 1))) <$> (of_nat <$> seq 0 num)
       else (λ i, i * (stop - start)) <$> (of_nat <$> seq 0 num)))) as Hall.
  { repeat case_decide; apply Hgrid; intros i Hi.
    - replace (of_nat i / of_nat (num - 1) * (stop - start))
        with (of_nat i * ((stop - start) / of_nat (num - 1))) by (unfold Qcdiv; ring).
      apply fraction_mul_range; auto using of_nat_nonneg, of_nat_pos.
      apply of_nat_le; lia.
    - apply fraction_mul_range; auto using of_nat_nonneg, of_nat_pos.
      apply of_nat_le; lia.
    - assert (i = 0)%nat as -> by lia.
      replace (of_nat 0) with 0 by (by apply Qc_is_canon).
      rewrite Qcmult_0_l. split; [apply Qcle_refl | done]. }
  destruct (decide (1 < num)%nat); [|exact Hall].
  apply Forall_set_last; [exact Hall|]. split; [done | apply Qcle_refl].
Qed.

(** [numpy.linspace] yields evenly spaced positions. *)
Lemma linspace_evenly_spaced start stop num :
  (2 ≤ num)%nat → linspace start stop num = evenly_spaced start stop num.
Proof.
  intros Hnum. destruct num as [|m]; [lia|].
  assert (of_nat m ≠ 0) as Hm.
  { apply not_eq_sym, Qclt_not_eq, of_nat_pos. lia. }
  unfold linspace, evenly_spaced. cbv zeta.
  replace (S m - 1)%nat with m by lia.
  rewrite (decide_True (P := (1 < S m)%nat)) by lia.
  rewrite (decide_True (P := (0 < m)%nat)) by lia.
  assert (∀ g : Qc → Qc,
    (∀ i, g (of_nat i) = of_nat i * ((stop - start) / of_nat m)) →
    set_last ((λ v, v + start) <$> (g <$> (of_nat <$> seq 0 (S m)))) stop
    = (λ k, start + of_nat k * ((stop - start) / of_nat m)) <$> seq 0 (S m)) as Hg.
  { intros g Hg. rewrite <-!list_fmap_compose.
    unfold set_last. rewrite seq_S, !fmap_app. cbn [fmap list_fmap plus].
    destruct (_ ++ _) eqn:E; [by destruct (seq 0 m)|]. rewrite <-E. clear E.
    rewrite length_app, length_fmap, length_seq. cbn [length].
    replace (m + 1 - 1)%nat with (length ((λ x, g (of_nat x) + start) <$> seq 0 m))
      by (rewrite length_fmap, length_seq; lia).
    rewrite take_app_length. f_equal.
    - apply list_fmap_ext. intros i x _. cbn. rewrite Hg. ring.
    - f_equal. field. exact Hm. }
  case_decide; apply Hg; intros i; [|reflexivity].
  unfold Qcdiv. ring.
Qed.

Lemma evenly_spaced_lookup a b n k :
  (k < n)%nat →
  evenly_spaced a b n !! k = Some (a + of_nat k * ((b - a) / of_nat (n - 1))).
Proof.
  intros Hk. unfold evenly_spaced. rewrite list_lookup_fmap, lookup_seq_lt by done.
  reflexivity.
Qed.

(** ** The arrays of the script

    The abscissae do not depend on the parameters: what is said about them
    here is obtained by evaluation. *)

Lemma initial_points_x_length : length initial_points_x = 10%nat.
Proof. apply length_linspace. Qed.

Lemma initial_points_y_linspace : initial_points_y = linspace (dec 25 8) (dec 6 7) 10.
Proof. unfold initial_points_y. by rewrite initial_points_x_length. Qed.

Lemma initial_points_y_length : length initial_points_y = 10%nat.
Proof. apply length_linspace. Qed.

Lemma minimum_initial_points_y : minimum initial_points_y = dec 25 8.
Proof. apply Qc_decomp. vm_compute. reflexivity. Qed.

Lemma maximum_initial_points_y : maximum initial_points_y = dec 6 7.
Proof. apply Qc_decomp. vm_compute. reflexivity. Qed.

Lemma left_guide_end : minimum initial_points_x - dec 1 8 = - dec 101 8.
Proof. apply Qc_decomp. vm_compute. reflexivity. Qed.

Lemma right_guide_end : maximum initial_points_x + dec 1 8 = dec 101 8.
Proof. apply Qc_decomp. vm_compute. reflexivity. Qed.

Lemma points_x_length : length points_x = 12%nat.
Proof. vm_compute. reflexivity. Qed.

Lemma minimum_points_x : minimum points_x = - dec 101 8.
Proof. apply Qc_decomp. vm_compute. reflexivity. Qed.

Lemma maximum_points_x : maximum points_x = dec 101 8.
Proof. apply Qc_decomp. vm_compute. reflexivity. Qed.

Lemma head_points_x : head points_x = Some boundary_left.1.
Proof.
  change (head points_x) with (Some (minimum initial_points_x - dec 1 8)).
  rewrite left_guide_end. reflexivity.
Qed.

Lemma last_points_x : last points_x = Some boundary_right.1.
Proof.
  unfold points_x. rewrite app_assoc, last_snoc, right_guide_end. reflexivity.
Qed.

Lemma points_x_sorted : Sorted Qclt points_x.
Proof. compute_done. Qed.

Lemma points_y_length params : length (points_y params) = S (S (length params)).
Proof. unfold points_y. rewrite !length_app. cbn [length]. lia. Qed.

Lemma points_y_bounds params :
  points_y params = dec 25 8 :: params ++ [dec 6 7].
Proof.
  unfold points_y. rewrite minimum_initial_points_y, maximum_initial_points_y.
  reflexivity.
Qed.

Lemma polygon_points_x_length : length polygon_points_x = n_interpolation_points.
Proof. apply length_linspace. Qed.

Lemma polygon_points_x_range :
  Forall (λ t, minimum points_x ≤ t ∧ t ≤ maximum points_x) polygon_points_x.
Proof.
  apply linspace_range. rewrite minimum_points_x, maximum_points_x. by vm_compute.
Qed.

Lemma polygon_points_x_evenly_spaced :
  polygon_points_x = evenly_spaced boundary_left.1 boundary_right.1 100.
Proof.
  unfold polygon_points_x. rewrite minimum_points_x, maximum_points_x.
  apply linspace_evenly_spaced. unfold n_interpolation_points. lia.
Qed.

Lemma polygon_points_x_sorted : Sorted Qclt polygon_points_x.
Proof. compute_done. Qed.

Lemma polygon_points_x_first : polygon_points_x !! 0%nat = Some (- dec 101 8).
Proof.
  rewrite polygon_points_x_evenly_spaced, evenly_spaced_lookup by lia.
  apply (f_equal Some). rewrite of_nat_0. cbn [boundary_left fst]. ring.
Qed.

Lemma polygon_points_x_last : polygon_points_x !! 99%nat = Some (dec 101 8).
Proof.
  rewrite polygon_points_x_evenly_spaced, evenly_spaced_lookup by lia.
  apply (f_equal Some). cbn [boundary_left boundary_right fst Nat.sub]. field.
  apply not_eq_sym, Qclt_not_eq, of_nat_pos. lia.
Qed.

Lemma nth_points_x_first : nth 0 points_x 0 = - dec 101 8.
Proof. exact left_guide_end. Qed.

Lemma nth_points_x_last : nth 11 points_x 0 = dec 101 8.
Proof. apply Qc_decomp. vm_compute. reflexivity. Qed.

Lemma nth_points_y_first params : nth 0 (points_y params) 0 = dec 25 8.
Proof. exact minimum_initial_points_y. Qed.

Lemma nth_points_y_last params :
  length params = 10%nat → nth 11 (points_y params) 0 = dec 6 7.
Proof.
  intros Hlen. unfold points_y.
  do 11 (destruct params as [|? params]; try discriminate Hlen).
  exact maximum_initial_points_y.
Qed.

Lemma knots_fst params :
  length params = 10%nat → (knots params).*1 = points_x.
Proof.
  intros Hlen. unfold knots, points_x. rewrite !fmap_app.
  rewrite fst_zip by (rewrite Hlen, initial_points_x_length; lia).
  rewrite left_guide_end, right_guide_end. reflexivity.
Qed.

Lemma knots_snd params :
  length params = 10%nat → (knots params).*2 = points_y params.
Proof.
  intros Hlen. unfold knots, points_y. rewrite !fmap_app.
  rewrite snd_zip by (rewrite Hlen, initial_points_x_length; lia).
  rewrite minimum_initial_points_y, maximum_initial_points_y. reflexivity.
Qed.

Lemma zip_fmap_r {A B} (f : A → B) (l : list A) :
  zip l (f <$> l) = (λ x, (x, f x)) <$> l.
Proof. induction l as [|a l IH]; [reflexivity|]. cbn. by rewrite IH. Qed.

Lemma mirror_fmap (l : list (Qc * Qc)) :
  (λ '(x, y), (x, - y)) <$> l = mirror <$> l.
Proof. apply list_fmap_ext. by intros i [x y] _. Qed.

(** Where the points of [U] sit in [reverse U ++ (f <$> U)]. *)
Lemma mirrored_lookup {A} (f : A → A) (U : list A) n k p :
  length U = S n →
  U !! k = Some p →
  (reverse U ++ (f <$> U)) !! (n - k)%nat = Some p
  ∧ (reverse U ++ (f <$> U)) !! (S n + k)%nat = Some (f p).
Proof.
  intros Hn Hk. pose proof (lookup_lt_Some _ _ _ Hk) as Hlt. split.
  - rewrite lookup_app_l by (rewrite length_reverse; lia).
    rewrite reverse_lookup by lia.
    replace (length U - S (n - k))%nat with k by lia. exact Hk.
  - rewrite lookup_app_r by (rewrite length_reverse; lia).
    rewrite length_reverse. replace (S n + k - length U)%nat with k by lia.
    rewrite list_lookup_fmap, Hk. reflexivity.
Qed.

Lemma Forall2_replicate_inv {A B} (P : A → B → Prop) l n b :
  Forall2 P l (replicate n b) → Forall (λ x, P x b) l.
Proof.
  revert n. induction l as [|x l IH]; intros n H; [constructor|].
  destruct n as [|n]; cbn [replicate] in H; [by apply Forall2_cons_nil_inv in H|].
  apply Forall2_cons in H as [H1 H2]. constructor; [exact H1 | exact (IH n H2)].
Qed.

Lemma within_bounds_inv params :
  within_bounds params →
  length params = 10%nat ∧ Forall (λ p, dec 2 7 ≤ p ∧ p ≤ dec 8 7) params.
Proof.
  intros H. split.
  - apply Forall2_length in H. rewrite H. unfold bounds.
    rewrite length_replicate. apply length_linspace.
  - exact (Forall2_replicate_inv _ _ _ _ H).
Qed.

(** ** The geometry function, for any spline *)

Section GeometryProps.

Variable spline : list Qc → list Qc → Qc → Qc.

Lemma interp1d_ok params :
  length params = 10%nat →
  interp1d points_x (points_y params) = Ok (Interp1d points_x (points_y params)).
Proof.
  intros Hlen. unfold interp1d.
  rewrite points_x_length, points_y_length, Hlen.
  rewrite decide_True by done. by rewrite decide_True by lia.
Qed.

Lemma interp1d_call_ok y :
  interp1d_call spline (Interp1d points_x y) polygon_points_x
  = Ok (spline points_x y <$> polygon_points_x).
Proof.
  unfold interp1d_call. cbn [interp_x interp_y].
  pose proof polygon_points_x_range as Hr.
  rewrite decide_False; [rewrite decide_False; [done|]|].
  - intros (t & Ht & Hlt)%Exists_exists.
    rewrite Forall_forall in Hr. destruct (Hr t Ht) as [_ Hle].
    exact (Qcle_not_lt _ _ Hle Hlt).
  - intros (t & Ht & Hlt)%Exists_exists.
    rewrite Forall_forall in Hr. destruct (Hr t Ht) as [Hle _].
    exact (Qcle_not_lt _ _ Hle Hlt).
Qed.

Lemma splitter_ok params :
  length params = 10%nat →
  splitter spline params
  = Ok (reverse (zip polygon_points_x (polygon_points_y spline params))
        ++ ((λ '(x, y), (x, - y)) <$> zip polygon_points_x (polygon_points_y spline params))).
Proof.
  intros Hlen. unfold splitter.
  rewrite (interp1d_ok _ Hlen). unfold mbind, result_bind.
  by rewrite interp1d_call_ok.
Qed.

Lemma polygon_points_y_length params :
  length (polygon_points_y spline params) = n_interpolation_points.
Proof. unfold polygon_points_y. by rewrite length_fmap, polygon_points_x_length. Qed.

Lemma sampled_lookup params k x :
  polygon_points_x !! k = Some x →
  zip polygon_points_x (polygon_points_y spline params) !! k
  = Some (x, spline points_x (points_y params) x).
Proof.
  intros Hk. unfold polygon_points_y.
  rewrite lookup_zip_with, Hk, list_lookup_fmap, Hk. reflexivity.
Qed.

(** Sample [k] appears twice in the outline: at index [99 - k] and,
    mirrored, at index [100 + k]. *)
Lemma splitter_samples params k x :
  polygon_points_x !! k = Some x →
  (reverse (zip polygon_points_x (polygon_points_y spline params))
   ++ ((λ '(x, y), (x, - y)) <$> zip polygon_points_x (polygon_points_y spline params)))
    !! (99 - k)%nat = Some (x, spline points_x (points_y params) x)
  ∧ (reverse (zip polygon_points_x (polygon_points_y spline params))
     ++ ((λ '(x, y), (x, - y)) <$> zip polygon_points_x (polygon_points_y spline params)))
      !! (100 + k)%nat = Some (x, - spline points_x (points_y params) x).
Proof.
  intros Hk.
  apply (mirrored_lookup (λ '(x, y), (x, - y)) _ 99 k
           (x, spline points_x (points_y params) x)).
  - rewrite length_zip_with, polygon_points_x_length, polygon_points_y_length.
    reflexivity.
  - exact (sampled_lookup params k x Hk).
Qed.

(** C1.  For every 10-element parameter vector, [splitter] returns what
    the steps of the specification give: the two fixed boundary points are
    added to the ten parameter points, which makes 12 knots; the spline
    through the knots is sampled at 100 evenly spaced abscissae from one
    boundary point to the other; the sampled curve is mirrored about
    [y = 0]; the polygon is the upper branch in reversed order followed by
    the lower branch. *)
Theorem splitter_follows_spec params :
  length params = 10%nat →
  length (knots params) = 12%nat
  ∧ length (evenly_spaced boundary_left.1 boundary_right.1 100) = 100%nat
  ∧ splitter spline params = Ok (splitter_spec spline params).
Proof.
  intros Hlen.
  pose proof initial_points_x_length as Hix.
  split.
  { unfold knots. rewrite !length_app, length_zip_with, Hix, Hlen. reflexivity. }
  split.
  { unfold evenly_spaced. by rewrite length_fmap, length_seq. }
  rewrite (splitter_ok _ Hlen). f_equal. unfold splitter_spec, polygon_points_y.
  rewrite knots_fst, knots_snd by exact Hlen.
  rewrite polygon_points_x_evenly_spaced, zip_fmap_r, mirror_fmap.
  reflexivity.
Qed.

(** C2.  For every 10-element parameter vector, within the bounds or not,
    [splitter] returns a polygon of [2 * n_interpolation_points] points,
    that is 200 points. *)
Theorem splitter_point_count params :
  length params = 10%nat →
  ∃ polygon, splitter spline params = Ok polygon
    ∧ length polygon = (2 * n_interpolation_points)%nat
    ∧ length polygon = 200%nat.
Proof.
  intros Hlen. eexists. split; [by apply splitter_ok|].
  rewrite length_app, length_reverse, length_fmap, length_zip_with.
  rewrite polygon_points_x_length, polygon_points_y_length.
  unfold n_interpolation_points. lia.
Qed.

(** C3.  For every 10-element parameter vector and every sampled abscissa
    [x], the returned polygon holds a point [(x, y)] in its first half and
    the mirrored point [(x, - y)] in its second half; point [i] and point
    [199 - i] have the same abscissa and opposite ordinates. *)
Theorem splitter_mirror_symmetry params :
  length params = 10%nat →
  ∃ polygon, splitter spline params = Ok polygon
    ∧ (∀ k x, polygon_points_x !! k = Some x →
         ∃ y, polygon !! (99 - k)%nat = Some (x, y)
              ∧ polygon !! (100 + k)%nat = Some (x, - y))
    ∧ (∀ i, (i < 200)%nat →
         ∃ x y, polygon !! i = Some (x, y)
                ∧ polygon !! (199 - i)%nat = Some (x, - y)).
Proof.
  intros Hlen. eexists. split; [by apply splitter_ok|].
  set (U := zip polygon_points_x (polygon_points_y spline params)).
  assert (length U = 100%nat) as HU.
  { unfold U. rewrite length_zip_with, polygon_points_x_length,
      polygon_points_y_length. reflexivity. }
  assert (∀ k x, polygon_points_x !! k = Some x →
    ∃ y, (reverse U ++ ((λ '(x, y), (x, - y)) <$> U)) !! (99 - k)%nat = Some (x, y)
         ∧ (reverse U ++ ((λ '(x, y), (x, - y)) <$> U)) !! (100 + k)%nat
           = Some (x, - y)) as Hsample.
  { intros k x Hk. exists (spline points_x (points_y params) x).
    exact (splitter_samples params k x Hk). }
  split; [exact Hsample|].
  intros i Hi.
  assert (length polygon_points_x = 100%nat) as Hx by apply polygon_points_x_length.
  destruct (decide (i < 100)%nat) as [Hlt|Hge].
  - destruct (lookup_lt_is_Some_2 polygon_points_x (99 - i)) as [x Hk]; [lia|].
    destruct (Hsample _ _ Hk) as (y & H1 & H2).
    exists x, y. replace (99 - (99 - i))%nat with i in H1 by lia.
    replace (199 - i)%nat with (100 + (99 - i))%nat by lia. split; [exact H1 | exact H2].
  - destruct (lookup_lt_is_Some_2 polygon_points_x (i - 100)) as [x Hk]; [lia|].
    destruct (Hsample _ _ Hk) as (y & H1 & H2).
    exists x, (- y). rewrite Qcopp_involutive.
    replace (100 + (i - 100))%nat with i in H2 by lia.
    replace (199 - i)%nat with (99 - (i - 100))%nat by lia. split; [exact H2 | exact H1].
Qed.

(** C7.  For every 10-element parameter vector, the 12 knot abscissae
    start at the left boundary point and end at the right one, which are
    their minimum and maximum; each of the 100 sampled abscissae lies
    between the two; so the call of the interpolator raises no range error
    and [splitter] returns. *)
Theorem resample_within_knot_range params :
  length params = 10%nat →
  length points_x = 12%nat
  ∧ head points_x = Some boundary_left.1
  ∧ last points_x = Some boundary_right.1
  ∧ minimum points_x = boundary_left.1
  ∧ maximum points_x = boundary_right.1
  ∧ length polygon_points_x = 100%nat
  ∧ Forall (λ t, minimum points_x ≤ t ∧ t ≤ maximum points_x) polygon_points_x
  ∧ interp1d_call spline (Interp1d points_x (points_y params)) polygon_points_x
    = Ok (polygon_points_y spline params)
  ∧ ∃ polygon, splitter spline params = Ok polygon.
Proof.
  intros Hlen.
  split; [exact points_x_length|].
  split; [exact head_points_x|].
  split; [exact last_points_x|].
  split; [exact minimum_points_x|].
  split; [exact maximum_points_x|].
  split; [exact polygon_points_x_length|].
  split; [exact polygon_points_x_range|].
  split; [apply interp1d_call_ok|].
  eexists. apply splitter_ok, Hlen.
Qed.

End GeometryProps.

(** ** The cubic spline passes through its knots *)

Lemma sorted_nth_lt (x : list Qc) i j :
  Sorted Qclt x → (i < j)%nat → (j < length x)%nat → nth i x 0 < nth j x 0.
Proof.
  intros Hs%Sorted_StronglySorted; [|exact Qclt_trans].
  revert i j. induction Hs as [|a l Hs IH Hall]; intros i j Hij Hj; [simpl in Hj; lia|].
  destruct j as [|j]; [lia|]. cbn [length] in Hj.
  destruct i as [|i]; cbn [nth].
  - rewrite Forall_forall in Hall. apply Hall.
    apply list_elem_of_In, nth_In. lia.
  - apply IH; lia.
Qed.

Module CubicSplineProps.

Import CubicSpline.

Lemma locate_cons x1 x2 r t :
  locate (x1 :: x2 :: r) t = if decide (x1 < t) then S (locate (x2 :: r) t) else 0%nat.
Proof. reflexivity. Qed.

Lemma locate_spec xs : ∀ x0 t,
  xs ≠ [] → x0 ≤ t → t ≤ nth (length xs) (x0 :: xs) 0 →
  (S (locate xs t) < S (length xs))%nat
  ∧ nth (locate xs t) (x0 :: xs) 0 ≤ t
  ∧ t ≤ nth (S (locate xs t)) (x0 :: xs) 0.
Proof.
  induction xs as [|x1 xs IH]; intros x0 t Hne Hlo Hhi; [done|].
  destruct xs as [|x2 r].
  - cbn [locate length nth] in *. repeat split; [lia | exact Hlo | exact Hhi].
  - rewrite locate_cons. destruct (decide (x1 < t)) as [Hlt|Hge].
    + destruct (IH x1 t) as (H1 & H2 & H3); [done | by apply Qclt_le_weak | exact Hhi |].
      cbn [length] in *. repeat split; [lia | exact H2 | exact H3].
    + cbn [length nth]. repeat split; [lia | exact Hlo | by apply Qcnot_lt_le].
Qed.

Lemma segment_spec x t :
  (2 ≤ length x)%nat → nth 0 x 0 ≤ t → t ≤ nth (length x - 1) x 0 →
  (S (segment x t) < length x)%nat
  ∧ nth (segment x t) x 0 ≤ t
  ∧ t ≤ nth (S (segment x t)) x 0.
Proof.
  intros Hlen Hlo Hhi. destruct x as [|x0 xs]; [simpl in Hlen; lia|].
  cbn [length] in *. replace (S (length xs) - 1)%nat with (length xs) in Hhi by lia.
  unfold segment. cbn [tail]. apply locate_spec; [|exact Hlo|exact Hhi].
  destruct xs; [simpl in Hlen; lia | done].
Qed.

Lemma of_nat_6_neq_0 : of_nat 6 ≠ 0.
Proof. apply not_eq_sym, Qclt_not_eq, of_nat_pos. lia. Qed.

(** The segment formula at the two ends of a segment [[a, b]]. *)
Lemma knot_algebra (a b c d p q : Qc) :
  a < b →
  ((b - a) / (b - a) * c + (a - a) / (b - a) * d
   + ((cube ((b - a) / (b - a)) - (b - a) / (b - a)) * p
      + (cube ((a - a) / (b - a)) - (a - a) / (b - a)) * q)
     * ((b - a) * (b - a)) / of_nat 6 = c)
  ∧ ((b - b) / (b - a) * c + (b - a) / (b - a) * d
   + ((cube ((b - b) / (b - a)) - (b - b) / (b - a)) * p
      + (cube ((b - a) / (b - a)) - (b - a) / (b - a)) * q)
     * ((b - a) * (b - a)) / of_nat 6 = d).
Proof.
  intros Hab.
  assert (b - a ≠ 0) as Hne.
  { intros E. apply Qclt_not_eq in Hab. apply Hab.
    rewrite <-(Qcplus_0_l a), <-E. ring. }
  unfold cube. split; field; (split; [exact Hne | exact of_nat_6_neq_0]).
Qed.

(** On each knot the value is the ordinate of the knot, whatever the
    moments are. *)
Lemma eval_at_knot x y m i :
  Sorted Qclt x → (2 ≤ length x)%nat → (i < length x)%nat →
  eval x y m (nth i x 0) = nth i y 0.
Proof.
  intros Hs Hlen Hi.
  assert (nth 0 x 0 ≤ nth i x 0) as Hlo.
  { destruct (decide (i = 0)%nat) as [->|Hneq]; [apply Qcle_refl|].
    apply Qclt_le_weak, sorted_nth_lt; [exact Hs | lia | exact Hi]. }
  assert (nth i x 0 ≤ nth (length x - 1) x 0) as Hhi.
  { destruct (decide (i = length x - 1)%nat) as [->|Hneq]; [apply Qcle_refl|].
    apply Qclt_le_weak, sorted_nth_lt; [exact Hs | lia | lia]. }
  destruct (segment_spec x _ Hlen Hlo Hhi) as (Hj & Hjl & Hjr).
  unfold eval. cbv zeta.
  generalize dependent (segment x (nth i x 0)). intros j Hj Hjl Hjr.
  assert (nth j x 0 < nth (S j) x 0) as Hh.
  { apply sorted_nth_lt; [exact Hs | lia | lia]. }
  assert (i = j ∨ i = S j) as Hij.
  { destruct (decide (i < j)%nat) as [H|H].
    - pose proof (sorted_nth_lt x i j Hs H ltac:(lia)) as Hc.
      destruct (Qclt_not_le _ _ Hc Hjl).
    - destruct (decide (S j < i)%nat) as [H'|H']; [|lia].
      pose proof (sorted_nth_lt x (S j) i Hs H' Hi) as Hc.
      destruct (Qclt_not_le _ _ Hc Hjr). }
  unfold h.
  destruct Hij as [->| ->].
  - exact (proj1 (knot_algebra (nth j x 0) (nth (S j) x 0) (nth j y 0)
                    (nth (S j) y 0) (nth j m 0) (nth (S j) m 0) Hh)).
  - exact (proj2 (knot_algebra (nth j x 0) (nth (S j) x 0) (nth j y 0)
                    (nth (S j) y 0) (nth j m 0) (nth (S j) m 0) Hh)).
Qed.

Lemma spline_interpolates : Interpolates spline.
Proof.
  intros x y i Hs _ Hlen Hi. unfold spline. apply eval_at_knot; [done | lia | done].
Qed.

End CubicSplineProps.

(** ** The two ends of the outline *)

Section EndPoints.

Variable spline : list Qc → list Qc → Qc → Qc.
Hypothesis spline_knots : Interpolates spline.

Lemma spline_left_end params :
  length params = 10%nat →
  spline points_x (points_y params) (- dec 101 8) = dec 25 8.
Proof.
  intros Hlen. rewrite <-nth_points_x_first, <-(nth_points_y_first params).
  apply spline_knots.
  - exact points_x_sorted.
  - rewrite points_x_length, points_y_length, Hlen. reflexivity.
  - rewrite points_x_length. lia.
  - rewrite points_x_length. lia.
Qed.

Lemma spline_right_end params :
  length params = 10%nat →
  spline points_x (points_y params) (dec 101 8) = dec 6 7.
Proof.
  intros Hlen. rewrite <-nth_points_x_last, <-(nth_points_y_last params Hlen).
  apply spline_knots.
  - exact points_x_sorted.
  - rewrite points_x_length, points_y_length, Hlen. reflexivity.
  - rewrite points_x_length. lia.
  - rewrite points_x_length. lia.
Qed.

Lemma end_points params :
  length params = 10%nat →
  ∃ polygon, splitter spline params = Ok polygon
    ∧ polygon !! 0%nat = Some (dec 101 8, dec 6 7)
    ∧ polygon !! 99%nat = Some (- dec 101 8, dec 25 8)
    ∧ polygon !! 100%nat = Some (- dec 101 8, - dec 25 8)
    ∧ polygon !! 199%nat = Some (dec 101 8, - dec 6 7).
Proof.
  intros Hlen. eexists. split; [exact (splitter_ok spline params Hlen)|].
  destruct (splitter_samples spline params 0 _ polygon_points_x_first) as [H1 H2].
  destruct (splitter_samples spline params 99 _ polygon_points_x_last) as [H3 H4].
  rewrite (spline_left_end params Hlen) in H1, H2.
  rewrite (spline_right_end params Hlen) in H3, H4.
  split; [exact H3|]. split; [exact H1|]. split; [exact H2 | exact H4].
Qed.

End EndPoints.

(** C9, as amended.  For every 10-element parameter vector and every
    interpolating spline, the ordinates at the two ends of the abscissa
    range do not depend on the parameters: the points at [x = 1.01e-6] have
    ordinates [0.6e-6] and [- 0.6e-6], the points at [x = - 1.01e-6] have
    ordinates [0.25e-6] and [- 0.25e-6].  In the returned array the upper
    half runs from the first to the second (indices 0 and 99), the lower
    half from the second to the first (indices 100 and 199). *)
Theorem splitter_end_points spline params :
  Interpolates spline →
  length params = 10%nat →
  ∃ polygon, splitter spline params = Ok polygon
    ∧ polygon !! 0%nat = Some (dec 101 8, dec 6 7)
    ∧ polygon !! 99%nat = Some (- dec 101 8, dec 25 8)
    ∧ polygon !! 100%nat = Some (- dec 101 8, - dec 25 8)
    ∧ polygon !! 199%nat = Some (dec 101 8, - dec 6 7).
Proof. intros Hs Hlen. exact (end_points spline Hs params Hlen). Qed.

(** ** The parameter file *)

Lemma resolve_read dir : resolve dir "2D_parameters.txt" = dir ++ ["2D_parameters.txt"].
Proof. reflexivity. Qed.

Lemma resolve_write dir :
  resolve dir "../2D_parameters.txt" = take (length dir - 1) dir ++ ["2D_parameters.txt"].
Proof. reflexivity. Qed.

Lemma resolve_write_subfolder dir d :
  resolve (dir ++ [d]) "../2D_parameters.txt" = resolve dir "2D_parameters.txt".
Proof.
  rewrite resolve_write, resolve_read, length_app. cbn [length].
  replace (length dir + 1 - 1)%nat with (length dir) by lia.
  by rewrite take_app_length.
Qed.

(** What [loadtxt] makes of a file of numbers. *)
Lemma loadtxt_numbers w lines :
  files w !! resolve (cwd w) "2D_parameters.txt" = Some (FloatText lines) →
  rectangular (nonblank lines) →
  loadtxt "2D_parameters.txt" w = Ok (squeeze (nonblank lines)).
Proof.
  intros Hfile Hrect. unfold loadtxt. rewrite Hfile.
  rewrite (decide_True (P := rectangular (nonblank lines))) by exact Hrect.
  reflexivity.
Qed.

Lemma entries_squeeze rows : entries (squeeze rows) = concat rows.
Proof.
  destruct rows as [|r1 [|r2 rows]].
  - reflexivity.
  - destruct r1 as [|x [|y r1]]; cbn [squeeze entries concat]; by rewrite ?app_nil_r.
  - destruct r1 as [|x [|y r1]]; cbn [squeeze]; by destruct (decide _).
Qed.

Lemma concat_nonblank lines : concat (nonblank lines) = concat lines.
Proof.
  unfold nonblank. induction lines as [|r lines IH]; [reflexivity|].
  rewrite filter_cons. destruct (decide (r ≠ [])) as [Hr|Hr].
  - cbn [concat]. by rewrite IH.
  - apply dec_stable in Hr. subst r. exact IH.
Qed.

Lemma squeeze_line v : length v ≠ 1%nat → squeeze (nonblank [v]) = Array1 v.
Proof.
  intros Hv. destruct v as [|x [|y v]]; [reflexivity | done | reflexivity].
Qed.

Lemma nonblank_column v : nonblank (column v) = column v.
Proof.
  unfold nonblank, column. induction v as [|x v IH]; [reflexivity|].
  rewrite fmap_cons, filter_cons, decide_True by done. by rewrite IH.
Qed.

Lemma rectangular_column v : rectangular (column v).
Proof.
  unfold rectangular, column. destruct v as [|x v]; [constructor|].
  apply Forall_fmap, Forall_forall. intros y _. reflexivity.
Qed.

Lemma concat_column v : concat (column v) = v.
Proof. unfold column. induction v as [|x v IH]; [reflexivity|]. cbn. by rewrite IH. Qed.

Lemma squeeze_column v : length v ≠ 1%nat → squeeze (column v) = Array1 v.
Proof.
  intros Hv. destruct v as [|x [|y v]]; [reflexivity | done |].
  unfold squeeze. change (column (x :: y :: v)) with ([x] :: [y] :: column v).
  rewrite decide_True.
  - change ([x] :: [y] :: column v) with (column (x :: y :: v)).
    by rewrite concat_column.
  - change ([x] :: [y] :: column v) with (column (x :: y :: v)).
    apply Forall_fmap, Forall_forall. intros z _. reflexivity.
Qed.


(** C5.  When [loadtxt] fails, which it does exactly when the file is
    absent, does not hold numbers, or holds lines of different lengths, the
    script prints the notice and takes [initial_points_y] as its parameter
    vector; otherwise it takes what [loadtxt] returned.  [initial_points_y]
    is [linspace(0.25e-6, 0.6e-6, 10)] and has 10 entries. *)
Theorem prev_results_fallback w :
  ((files w !! resolve (cwd w) "2D_parameters.txt" = None
    ∨ (∃ s, files w !! resolve (cwd w) "2D_parameters.txt" = Some (OtherText s))
    ∨ (∃ lines, files w !! resolve (cwd w) "2D_parameters.txt" = Some (FloatText lines)
                ∧ ¬ rectangular (nonblank lines)))
   ↔ ∃ e, loadtxt "2D_parameters.txt" w = Raise e)
  ∧ (∀ e, loadtxt "2D_parameters.txt" w = Raise e →
       load_prev_results w = (Array1 initial_points_y, print notice w)
       ∧ stdout (load_prev_results w).2 = stdout w ++ [notice])
  ∧ (∀ a, loadtxt "2D_parameters.txt" w = Ok a → load_prev_results w = (a, w))
  ∧ initial_points_y = linspace (dec 25 8) (dec 6 7) 10
  ∧ length initial_points_y = 10%nat.
Proof.
  split; [|split; [|split; [|split]]].
  - unfold loadtxt. destruct (files w !! _) as [[lines|s]|].
    + destruct (decide (rectangular (nonblank lines))) as [Hr|Hr]; split.
      * intros [H|[[s H]|(lines' & H & Hn)]]; [discriminate H | discriminate H |].
        injection H as <-. contradiction.
      * intros [e H]. discriminate H.
      * intros _. by eexists.
      * intros _. right. right. exists lines. split; [reflexivity | exact Hr].
    + split; [intros _; by eexists | intros _; right; left; by eexists].
    + split; [intros _; by eexists | intros _; by left].
  - intros e He. unfold load_prev_results. rewrite He. done.
  - intros a Ha. unfold load_prev_results. by rewrite Ha.
  - exact initial_points_y_linspace.
  - exact initial_points_y_length.
Qed.

(** C10.  Whatever numbers the file holds, however many and however
    large, the array that [loadtxt] makes of them becomes the initial
    parameters of the polygon as it is: its entries are the numbers of the
    file in their order, and a file of one line or of one column, a single
    number apart, gives the vector of its numbers.  The notice is printed,
    hence the default vector taken, only when [loadtxt] raises. *)
Theorem prev_results_not_validated spline w lines :
  files w !! resolve (cwd w) "2D_parameters.txt" = Some (FloatText lines) →
  rectangular (nonblank lines) →
  load_prev_results w = (squeeze (nonblank lines), w)
  ∧ initial_params (make_polygon spline (load_prev_results w).1)
    = squeeze (nonblank lines)
  ∧ entries (initial_params (make_polygon spline (load_prev_results w).1))
    = concat lines
  ∧ (∀ v, (lines = [v] ∨ lines = column v) → length v ≠ 1%nat →
       initial_params (make_polygon spline (load_prev_results w).1) = Array1 v)
  ∧ (∀ w', (load_prev_results w').2 = print notice w' →
       ∃ e, loadtxt "2D_parameters.txt" w' = Raise e).
Proof.
  intros Hfile Hrect.
  assert (load_prev_results w = (squeeze (nonblank lines), w)) as Hload.
  { unfold load_prev_results. rewrite (loadtxt_numbers w lines Hfile Hrect).
    reflexivity. }
  split; [exact Hload|]. rewrite Hload. cbn [fst make_polygon initial_params].
  split; [reflexivity|].
  split; [rewrite entries_squeeze; apply concat_nonblank|].
  split.
  { intros v [->| ->] Hv.
    - exact (squeeze_line v Hv).
    - rewrite nonblank_column. exact (squeeze_column v Hv). }
  intros w'. unfold load_prev_results.
  destruct (loadtxt _ w') as [v'|e]; [|by eexists].
  cbn [snd]. intros H. apply (f_equal stdout) in H. cbn [stdout print] in H.
  apply (f_equal length) in H. rewrite length_app in H. cbn [length] in H. lia.
Qed.

Section ScriptProps.

Variable spline : list Qc → list Qc → Qc → Qc.
Variable optimization_run :
  FunctionDefinedPolygon → World → (Qc * list Qc) * World.

Lemma script_unfold w :
  script spline optimization_run w
  = savetxt "../2D_parameters.txt" (best_params spline optimization_run w)
      (world_after_run spline optimization_run w).
Proof.
  unfold script, best_params, world_after_run.
  destruct (load_prev_results w) as [prev w1].
  by destruct (optimization_run _ w1) as [[fom best] w2].
Qed.

Lemma later_run_loads w d :
  cwd (world_after_run spline optimization_run w) = cwd w ++ [d] →
  load_prev_results (later_run w (script spline optimization_run w))
  = (squeeze (column (best_params spline optimization_run w)),
     later_run w (script spline optimization_run w)).
Proof.
  intros Hcwd. rewrite script_unfold.
  unfold load_prev_results, loadtxt, later_run, savetxt. cbn [cwd files].
  rewrite Hcwd, resolve_write_subfolder, lookup_insert_eq.
  rewrite nonblank_column.
  rewrite (decide_True (P := rectangular _)) by apply rectangular_column.
  reflexivity.
Qed.

End ScriptProps.

(** C6, as amended.  The script writes the best vector to
    ["../2D_parameters.txt"], resolved in the directory in which the
    optimizer returns, one number on each line, and reads its prior
    parameters from ["2D_parameters.txt"] in the directory in which it was
    started.  When the optimizer returns in a direct subfolder of the start
    directory, the two are one file, and a later run started in the same
    directory loads the saved numbers in their order: as the saved vector
    itself, unless that has a single entry, which [loadtxt] reads back as
    an array of dimension 0. *)
Theorem saved_parameters_reused_from_subfolder spline optimization_run w d :
  cwd (world_after_run spline optimization_run w) = cwd w ++ [d] →
  files (script spline optimization_run w)
    !! resolve (cwd (world_after_run spline optimization_run w)) "../2D_parameters.txt"
  = Some (FloatText (column (best_params spline optimization_run w)))
  ∧ resolve (cwd (world_after_run spline optimization_run w)) "../2D_parameters.txt"
    = resolve (cwd w) "2D_parameters.txt"
  ∧ entries (load_prev_results (later_run w (script spline optimization_run w))).1
    = best_params spline optimization_run w
  ∧ (length (best_params spline optimization_run w) ≠ 1%nat →
     (load_prev_results (later_run w (script spline optimization_run w))).1
     = Array1 (best_params spline optimization_run w)).
Proof.
  intros Hd. split; [|split; [|split]].
  - rewrite script_unfold. unfold savetxt. cbn [files]. apply lookup_insert_eq.
  - rewrite Hd. apply resolve_write_subfolder.
  - rewrite (later_run_loads spline optimization_run w d Hd). cbn [fst].
    rewrite entries_squeeze. apply concat_column.
  - intros Hlen. rewrite (later_run_loads spline optimization_run w d Hd). cbn [fst].
    exact (squeeze_column _ Hlen).
Qed.

(** ** The calls of the geometry function in a run *)

Section CallsProps.

Variable spline : list Qc → list Qc → Qc → Qc.




End CallsProps.

(** What a write into the array [initial_points_y] does to later calls. *)

Section WrittenArray.

Variable spline : list Qc → list Qc → Qc → Qc.
Hypothesis spline_knots : Interpolates spline.





End WrittenArray.

(** ** The signed area of a mirrored curve *)

Lemma path_end_snoc p l q : path_end p (l ++ [q]) = q.
Proof. unfold path_end. by rewrite fold_left_app. Qed.

Lemma path_sum_app p l1 l2 :
  path_sum p (l1 ++ l2) = path_sum p l1 + path_sum (path_end p l1) l2.
Proof.
  revert p. induction l1 as [|q l1 IH]; intros p; cbn [app path_sum].
  - unfold path_end. cbn. ring.
  - rewrite IH. unfold path_end. cbn [fold_left]. ring.
Qed.

Lemma cross_antisym p q : cross q p = - cross p q.
Proof. unfold cross. ring. Qed.

Lemma path_sum_reverse p l :
  ∃ R, reverse (p :: l) = path_end p l :: R
       ∧ path_sum (path_end p l) R = - path_sum p l
       ∧ path_end (path_end p l) R = p.
Proof.
  induction l as [|q l IH] using rev_ind.
  - exists []. split; [reflexivity|]. split; [cbn; ring | reflexivity].
  - destruct IH as (R & HR & Hsum & Hend).
    exists (path_end p l :: R). rewrite path_end_snoc.
    split; [|split].
    + rewrite app_comm_cons, reverse_snoc, HR. reflexivity.
    + rewrite path_sum_app. cbn [path_sum]. rewrite Hsum, (cross_antisym _ q). ring.
    + exact Hend.
Qed.

Lemma path_sum_mirror p l : path_sum (mirror p) (mirror <$> l) = - path_sum p l.
Proof.
  revert p. induction l as [|q l IH]; intros p; cbn [fmap list_fmap path_sum].
  - ring.
  - rewrite IH. unfold cross, mirror. cbn [fst snd]. ring.
Qed.

Lemma path_end_mirror p l : path_end (mirror p) (mirror <$> l) = mirror (path_end p l).
Proof.
  revert p. induction l as [|q l IH]; intros p; [reflexivity|].
  cbn [fmap list_fmap]. unfold path_end. cbn [fold_left]. apply IH.
Qed.

Lemma trapezoid_path_sum p l :
  trapezoid p l
  = - path_sum p l + ((path_end p l).1 * (path_end p l).2 - p.1 * p.2).
Proof.
  revert p. induction l as [|q l IH]; intros p; cbn [trapezoid path_sum].
  - unfold path_end. cbn. ring.
  - rewrite IH. unfold path_end, cross. cbn [fold_left]. ring.
Qed.

(** The shoelace sum of a curve closed by its mirror image is twice the
    trapezoid sum of the curve. *)
Lemma shoelace_mirrored U :
  shoelace (reverse U ++ (mirror <$> U)) = (1 + 1) * trapezoid_sum U.
Proof.
  destruct U as [|p U]; [cbn; ring|].
  destruct (path_sum_reverse p U) as (R & HR & Hsum & Hend).
  rewrite HR. cbn [app shoelace fmap list_fmap trapezoid_sum].
  rewrite <-app_assoc, path_sum_app, Hsum, Hend.
  cbn [app path_sum]. rewrite path_sum_app, path_sum_mirror, path_end_mirror.
  cbn [path_sum]. rewrite trapezoid_path_sum.
  unfold cross, mirror. cbn [fst snd]. ring.
Qed.

(** Below an increasing sequence of abscissae with positive ordinates the
    trapezoid sum is positive. *)
Lemma trapezoid_nonneg p l :
  Sorted Qclt ((p :: l).*1) → Forall (λ q, 0 < q.2) (p :: l) → 0 ≤ trapezoid p l.
Proof.
  revert p. induction l as [|q l IH]; intros p Hs Hpos; cbn [trapezoid].
  - apply Qcle_refl.
  - cbn [fmap list_fmap] in Hs. apply Sorted_inv in Hs as [Hs Hhd].
    apply HdRel_inv in Hhd. apply Forall_cons in Hpos as [Hp Hpos].
    pose proof (Forall_inv Hpos) as Hq. cbn beta in Hp, Hq.
    apply Qcplus_nonneg_nonneg; [|by apply IH].
    apply Qcmult_nonneg_nonneg.
    + apply Qclt_le_weak. apply Qclt_minus_iff in Hhd. exact Hhd.
    + apply Qclt_le_weak, Qcplus_pos_pos; assumption.
Qed.

Lemma trapezoid_pos p q l :
  Sorted Qclt ((p :: q :: l).*1) → Forall (λ q, 0 < q.2) (p :: q :: l) →
  0 < trapezoid p (q :: l).
Proof.
  intros Hs Hpos. cbn [trapezoid].
  cbn [fmap list_fmap] in Hs. apply Sorted_inv in Hs as [Hs Hhd].
  apply HdRel_inv in Hhd. apply Forall_cons in Hpos as [Hp Hpos].
  pose proof (Forall_inv Hpos) as Hq. cbn beta in Hp, Hq.
  apply Qcplus_pos_nonneg; [|by apply trapezoid_nonneg].
  apply Qcmult_pos_pos.
  - apply Qclt_minus_iff in Hhd. exact Hhd.
  - apply Qcplus_pos_pos; assumption.
Qed.

Lemma two_neq_0 : (1 + 1 : Qc) ≠ 0.
Proof. compute_done. Qed.

Lemma splitter_signed_area spline params :
  length params = 10%nat →
  ∃ polygon, splitter spline params = Ok polygon
    ∧ signed_area polygon
      = trapezoid_sum (zip polygon_points_x (polygon_points_y spline params)).
Proof.
  intros Hlen. eexists. split; [exact (splitter_ok spline params Hlen)|].
  unfold signed_area.
  rewrite mirror_fmap, shoelace_mirrored.
  field. exact two_neq_0.
Qed.

(** ** The cubic spline is linear in the ordinates *)

Module Linearity.

Import CubicSpline.

Lemma length_vadd u v : length u = length v → length (vadd u v) = length u.
Proof. intros H. unfold vadd. rewrite length_zip_with. lia. Qed.

Lemma length_vscale c u : length (vscale c u) = length u.
Proof. apply length_fmap. Qed.

Lemma nth_vadd i u v :
  length u = length v → nth i (vadd u v) 0 = nth i u 0 + nth i v 0.
Proof.
  revert i v. induction u as [|a u IH]; intros i [|b v] Hlen; try discriminate Hlen.
  - destruct i; cbn; ring.
  - destruct i as [|i]; cbn [vadd zip_with nth]; [reflexivity|].
    apply IH. by injection Hlen.
Qed.

Lemma nth_vscale i c u : nth i (vscale c u) 0 = c * nth i u 0.
Proof.
  revert i. induction u as [|a u IH]; intros [|i]; cbn [vscale fmap list_fmap nth];
    try ring; try reflexivity.
  apply IH.
Qed.

Lemma Lin_ext n f g : (∀ u, f u = g u) → Lin n f → Lin n g.
Proof.
  intros E [Ha Hs]. split.
  - intros u v Hu Hv. rewrite <-!E. by apply Ha.
  - intros c u Hu. rewrite <-!E. by apply Hs.
Qed.

Lemma Lin_zero n : Lin n (λ _, 0).
Proof. split; intros; ring. Qed.

Lemma Lin_nth n i : Lin n (λ u, nth i u 0).
Proof.
  split.
  - intros u v Hu Hv. apply nth_vadd. congruence.
  - intros c u _. apply nth_vscale.
Qed.

Lemma Lin_add n f g : Lin n f → Lin n g → Lin n (λ u, f u + g u).
Proof.
  intros [Hfa Hfs] [Hga Hgs]. split.
  - intros u v Hu Hv. rewrite Hfa, Hga by done. ring.
  - intros c u Hu. rewrite Hfs, Hgs by done. ring.
Qed.

Lemma Lin_scale n c f : Lin n f → Lin n (λ u, c * f u).
Proof.
  intros [Hfa Hfs]. split.
  - intros u v Hu Hv. rewrite Hfa by done. ring.
  - intros d u Hu. rewrite Hfs by done. ring.
Qed.

Lemma Lin_dot_map n (r : vector) (g : nat → vector → Qc) (l : list nat) :
  (∀ i, Lin n (g i)) → Lin n (λ u, dot r ((λ i, g i u) <$> l)).
Proof.
  intros Hg. revert r. induction l as [|i l IH]; intros r.
  - apply (Lin_ext n (λ _, 0)); [|apply Lin_zero].
    intros u. unfold dot. by destruct r.
  - destruct r as [|a r].
    + apply (Lin_ext n (λ _, 0)); [|apply Lin_zero]. reflexivity.
    + apply (Lin_ext n (λ u, a * g i u + dot r ((λ i, g i u) <$> l))).
      * reflexivity.
      * apply Lin_add; [apply Lin_scale, Hg | apply IH].
Qed.

Lemma Lin_rhs_entry n x m i : Lin n (λ y, rhs_entry x y m i).
Proof.
  split.
  - intros u v Hu Hv. unfold rhs_entry. case_decide; [ring|].
    rewrite !nth_vadd by congruence. unfold Qcdiv. ring.
  - intros c u Hu. unfold rhs_entry. case_decide; [ring|].
    rewrite !nth_vscale. unfold Qcdiv. ring.
Qed.

Lemma nth_matvec i (M : matrix) (v : vector) :
  nth i (matvec M v) 0 = dot (nth i M []) v.
Proof.
  unfold matvec. revert i. induction M as [|r M IH]; intros [|i]; cbn [fmap list_fmap nth];
    try reflexivity.
  apply IH.
Qed.

Lemma Lin_moment n x i : Lin n (λ y, nth i (moments x y) 0).
Proof.
  unfold moments. destruct (inverse (system x)) as [Ainv|].
  - apply (Lin_ext n (λ y, dot (nth i Ainv [])
                             ((λ k, rhs_entry x y (length x) k) <$> seq 0 (length x)))).
    + intros y. by rewrite nth_matvec.
    + apply Lin_dot_map. intros k. apply Lin_rhs_entry.
  - apply (Lin_ext n (λ _, 0)); [|apply Lin_zero]. intros y. by destruct i.
Qed.

Lemma spline_eval x y t : spline x y t = eval x y (moments x y) t.
Proof. reflexivity. Qed.

(** The spline through given abscissae is linear in the ordinates. *)
Lemma Lin_spline n x t : Lin n (λ y, spline x y t).
Proof.
  destruct (Lin_moment n x (segment x t)) as [Ha1 Hs1].
  destruct (Lin_moment n x (S (segment x t))) as [Ha2 Hs2].
  split.
  - intros u v Hu Hv. rewrite !spline_eval. unfold eval. cbv zeta.
    rewrite Ha1, Ha2, !nth_vadd by congruence. unfold Qcdiv. ring.
  - intros c u Hu. rewrite !spline_eval. unfold eval. cbv zeta.
    rewrite Hs1, Hs2, !nth_vscale by congruence. unfold Qcdiv. ring.
Qed.

Lemma Lin_trapezoid n (g : Qc → vector → Qc) (xs : list Qc) :
  (∀ x, Lin n (g x)) →
  Lin n (λ y, trapezoid_sum ((λ x, (x, g x y)) <$> xs)).
Proof.
  intros Hg. destruct xs as [|x0 xs]; [apply Lin_zero|].
  cbn [fmap list_fmap trapezoid_sum].
  revert x0. induction xs as [|x1 xs IH]; intros x0; [apply Lin_zero|].
  cbn [fmap list_fmap trapezoid fst snd].
  apply Lin_add; [|apply IH].
  apply Lin_scale, Lin_add; apply Hg.
Qed.

(** *** A linear map is determined by its values on the unit vectors *)

Lemma unit_S_0 n : unit (S n) 0 = 1 :: replicate n 0.
Proof.
  unfold unit. cbn [seq fmap list_fmap]. rewrite decide_True by done. f_equal.
  rewrite <-fmap_S_seq, <-list_fmap_compose.
  rewrite (const_fmap _ _ 0); [by rewrite length_seq|].
  intros _ i _. unfold compose. by rewrite decide_False by lia.
Qed.

Lemma unit_S_S n j : unit (S n) (S j) = 0 :: unit n j.
Proof.
  unfold unit. cbn [seq fmap list_fmap]. rewrite decide_False by done. f_equal.
  rewrite <-fmap_S_seq, <-list_fmap_compose. apply list_fmap_ext.
  intros _ i _. unfold compose. destruct (decide (i = j)).
  - by rewrite decide_True by lia.
  - by rewrite decide_False by lia.
Qed.

Lemma vector_split a (u : vector) :
  a :: u = vadd (vscale a (1 :: replicate (length u) 0)) (0 :: u).
Proof.
  cbn [vscale vadd fmap list_fmap zip_with]. f_equal; [ring|].
  induction u as [|b u IH]; [reflexivity|].
  cbn [length replicate fmap list_fmap zip_with]. f_equal; [ring | exact IH].
Qed.

Lemma Lin_tail n f : Lin (S n) f → Lin n (λ w, f (0 :: w)).
Proof.
  intros [Ha Hs]. split.
  - intros u v Hu Hv. rewrite <-Ha by (cbn; lia).
    cbn [vadd zip_with]. by rewrite Qcplus_0_l.
  - intros c u Hu. rewrite <-Hs by (cbn; lia).
    cbn [vscale fmap list_fmap]. by rewrite Qcmult_0_r.
Qed.

Lemma Lin_basis n : ∀ f u,
  Lin n f → length u = n → f u = dot u (f <$> (unit n <$> seq 0 n)).
Proof.
  induction n as [|n IH]; intros f u Hf Hu.
  - destruct u; [|discriminate Hu]. destruct Hf as [_ Hs].
    specialize (Hs 0 [] eq_refl). cbn [vscale fmap list_fmap] in Hs.
    rewrite Hs. cbn. ring.
  - destruct u as [|a u]; [discriminate Hu|]. injection Hu as Hu.
    rewrite (vector_split a u) at 1. destruct Hf as [Ha Hs].
    rewrite Ha, Hs, Hu, <-unit_S_0;
      try (cbn [length]; rewrite ?length_vscale; cbn [length];
           rewrite ?length_replicate; lia).
    rewrite (IH (λ w, f (0 :: w)) u (Lin_tail n f (conj Ha Hs)) Hu).
    cbn [seq fmap list_fmap]. unfold dot. cbn [zip_with foldr]. f_equal.
    f_equal. f_equal.
    rewrite <-fmap_S_seq, <-!list_fmap_compose. apply list_fmap_ext.
    intros _ j _. unfold compose. by rewrite unit_S_S.
Qed.

Lemma Lin_dot n (r : vector) : Lin n (λ b, dot r b).
Proof.
  split.
  - intros u v Hu Hv. assert (length u = length v) as Hlen by congruence. clear Hu Hv.
    revert u v Hlen. induction r as [|a r IH]; intros [|p u] [|q v] Hlen;
      try discriminate Hlen; unfold dot in *; cbn [vadd zip_with foldr]; try ring.
    injection Hlen as Hlen. specialize (IH u v Hlen). unfold vadd in IH.
    rewrite IH. ring.
  - intros c u _. revert u. induction r as [|a r IH]; intros [|p u];
      unfold dot in *; cbn [vscale fmap list_fmap zip_with foldr]; try ring.
    specialize (IH u). unfold vscale in IH. rewrite IH. ring.
Qed.

Lemma Lin_dot_rows n (r : vector) (M : matrix) :
  Lin n (λ b, dot r (matvec M b)).
Proof.
  revert r. induction M as [|row M IH]; intros r.
  - apply (Lin_ext n (λ _, 0)); [|apply Lin_zero]. intros b. by destruct r.
  - destruct r as [|a r].
    + apply (Lin_ext n (λ _, 0)); [|apply Lin_zero]. reflexivity.
    + apply (Lin_ext n (λ b, a * dot row b + dot r (matvec M b))); [reflexivity|].
      apply Lin_add; [apply Lin_scale, Lin_dot | apply IH].
Qed.

(** Two linear maps that agree on the unit vectors agree everywhere. *)
Lemma Lin_agree n f g :
  Lin n f → Lin n g →
  Forall (λ j, f (unit n j) = g (unit n j)) (seq 0 n) →
  ∀ u, length u = n → f u = g u.
Proof.
  intros Hf Hg Hfg u Hu.
  rewrite (Lin_basis n f u Hf Hu), (Lin_basis n g u Hg Hu). f_equal.
  rewrite <-!list_fmap_compose. apply list_fmap_ext.
  intros i j Hj. rewrite Forall_forall in Hfg. apply Hfg.
  apply list_elem_of_lookup. by exists i.
Qed.

End Linearity.

(** ** The model of the cubic spline

    Two checks that [CubicSpline.spline] is the not-a-knot spline. *)

Section CubicModel.

Import CubicSpline Linearity.

Lemma spline_reproduces_cubic :
  Forall (λ k, spline sample_knots (sample_cubic <$> sample_knots) (of_nat k / of_nat 7)
               = sample_cubic (of_nat k / of_nat 7))
         (seq 0 29).
Proof. compute_done. Qed.

Lemma system_length x : length (system x) = length x.
Proof. unfold system. by rewrite length_fmap, length_seq. Qed.

(** For the knots of [splitter], Gauss-Jordan elimination does invert the
    system. *)
Lemma system_inverted :
  Forall (λ i, Forall (λ j, dot (nth i (system points_x) [])
                              (matvec knot_inverse (unit 12 j))
                            = nth i (unit 12 j) 0) (seq 0 12)) (seq 0 12).
Proof. compute_done. Qed.

Lemma moments_knot_inverse ys :
  moments points_x ys = matvec knot_inverse (rhs points_x ys).
Proof.
  unfold moments, knot_inverse. by destruct (inverse (system points_x)).
Qed.

Lemma system_inverse_apply b :
  length b = 12%nat → matvec (system points_x) (matvec knot_inverse b) = b.
Proof.
  intros Hb. apply (nth_ext _ _ 0 0).
  - unfold matvec at 1. rewrite length_fmap, system_length, points_x_length, Hb.
    reflexivity.
  - intros i Hi. unfold matvec at 1 in Hi.
    rewrite length_fmap, system_length, points_x_length in Hi.
    rewrite nth_matvec.
    apply (Lin_agree 12 (λ b, dot (nth i (system points_x) []) (matvec knot_inverse b))
             (λ b, nth i b 0)); [apply Lin_dot_rows | apply Lin_nth | | exact Hb].
    pose proof system_inverted as Hinv.
    rewrite Forall_forall in Hinv. apply Hinv, elem_of_seq. lia.
Qed.

(** For every choice of the ordinates, the moments of the spline through the
    knots of [splitter] satisfy the not-a-knot system: the first derivative is
    continuous at the interior knots, and the third derivative is continuous
    at the second and at the second-to-last knot. *)
Lemma moments_solve_system ys :
  length ys = 12%nat →
  matvec (system points_x) (moments points_x ys) = rhs points_x ys.
Proof.
  intros Hys. rewrite moments_knot_inverse. apply system_inverse_apply.
  unfold rhs. by rewrite length_fmap, length_seq, points_x_length.
Qed.

End CubicModel.

(** ** The area under the sampled cubic spline *)

Section CubicArea.

Import CubicSpline Linearity.

Lemma Lin_outline_area : Lin 12 outline_area.
Proof.
  apply (Lin_ext 12 (λ ys, trapezoid_sum
           ((λ x, (x, spline points_x ys x)) <$> polygon_points_x))).
  - intros ys. unfold outline_area. by rewrite zip_fmap_r.
  - apply (Lin_trapezoid 12 (λ x ys, spline points_x ys x)).
    intros x. apply Lin_spline.
Qed.

Lemma outline_area_basis ys :
  length ys = 12%nat → outline_area ys = dot ys (outline_area <$> (unit 12 <$> seq 0 12)).
Proof. apply Lin_basis, Lin_outline_area. Qed.

Lemma dot_lower_bound lo (u c : list Qc) :
  length u = length c → Forall (λ p, lo ≤ p) u → Forall (λ a, 0 ≤ a) c →
  lo * total c ≤ dot u c.
Proof.
  revert c. induction u as [|p u IH]; intros [|a c] Hlen Hu Hc; try discriminate Hlen.
  - cbn. rewrite Qcmult_0_r. apply Qcle_refl.
  - apply Forall_cons in Hu as [Hp Hu]. apply Forall_cons in Hc as [Ha Hc].
    injection Hlen as Hlen. specialize (IH c Hlen Hu Hc).
    unfold dot, total in *. cbn [zip_with foldr].
    rewrite Qcmult_plus_distr_r. apply Qcplus_le_compat; [|exact IH].
    by apply Qcmult_le_mono_nonneg_r.
Qed.

Lemma dot_cons a u b c : dot (a :: u) (b :: c) = a * b + dot u c.
Proof. reflexivity. Qed.

Lemma dot_snoc u a c b :
  length u = length c → dot (u ++ [a]) (c ++ [b]) = dot u c + a * b.
Proof.
  revert c. induction u as [|p u IH]; intros [|q c] Hlen; try discriminate Hlen.
  - unfold dot. cbn. ring.
  - injection Hlen as Hlen. cbn [app]. rewrite !dot_cons, IH by done. ring.
Qed.

Lemma dot_bounded_below (lo a b a0 a11 : Qc) (u c : list Qc) :
  length u = length c → Forall (λ p, lo ≤ p) u → Forall (λ x, 0 ≤ x) c →
  0 < a * a0 + lo * total c + b * a11 →
  0 < dot (a :: u ++ [b]) (a0 :: c ++ [a11]).
Proof.
  intros Hlen Hu Hc Hpos.
  rewrite dot_cons, dot_snoc by exact Hlen.
  pose proof (dot_lower_bound lo u c Hlen Hu Hc) as Hdot.
  generalize dependent (dot u c). generalize dependent (total c).
  intros s Hpos d Hd.
  eapply Qclt_le_trans; [exact Hpos|].
  rewrite (Qcplus_assoc (a * a0) d (b * a11)).
  apply Qcplus_le_compat; [|apply Qcle_refl].
  apply Qcplus_le_compat; [apply Qcle_refl | exact Hd].
Qed.

Lemma area_coefficients_eq :
  area_coefficients = outline_area <$> (unit 12 <$> seq 0 12).
Proof.
  unfold area_coefficients.
  destruct (inverse (system points_x)) as [Ainv|] eqn:E; [|reflexivity].
  apply list_fmap_ext. intros _ ys _.
  unfold outline_area, outline_area_with, spline, moments.
  rewrite E. reflexivity.
Qed.

Lemma area_coefficients_ok : coefficients_ok area_coefficients = true.
Proof. vm_compute. reflexivity. Qed.

Lemma twelve_split (c : list Qc) :
  length c = 12%nat → c = nth 0 c 0 :: take 10 (drop 1 c) ++ [nth 11 c 0].
Proof.
  intros Hlen.
  do 13 (destruct c as [|? c]; try discriminate Hlen).
  reflexivity.
Qed.

(** The area under the sampled curve is positive for parameters at or above
    the lower bound. *)
Lemma outline_area_positive params :
  length params = 10%nat → Forall (λ p, dec 2 7 ≤ p) params →
  0 < outline_area (points_y params).
Proof.
  intros Hlen Hlo.
  rewrite outline_area_basis by (rewrite points_y_length, Hlen; reflexivity).
  rewrite points_y_bounds, <-area_coefficients_eq.
  pose proof area_coefficients_ok as Hok.
  assert (length area_coefficients = 12%nat) as Hc.
  { rewrite area_coefficients_eq, !length_fmap, length_seq. reflexivity. }
  generalize dependent area_coefficients. intros c Hok Hc.
  unfold coefficients_ok in Hok.
  apply andb_true_iff in Hok as [Hnonneg Hleast].
  apply bool_decide_eq_true in Hleast.
  rewrite (twelve_split c Hc).
  apply (dot_bounded_below (dec 2 7)).
  - rewrite length_take, length_drop, Hc, Hlen. reflexivity.
  - exact Hlo.
  - apply Forall_forall. intros a Ha.
    rewrite forallb_forall in Hnonneg.
    apply list_elem_of_In, Hnonneg in Ha. apply bool_decide_eq_true in Ha. exact Ha.
  - exact Hleast.
Qed.

Lemma lowest_within_bounds : within_bounds lowest.
Proof. compute_done. Qed.

(** At the lower bound the sampled curve dips below the axis. *)
Lemma lowest_sample_negative :
  Exists (λ y, y < 0) (polygon_points_y spline lowest).
Proof. compute_done. Qed.

(** C4.  For every 10-element parameter vector within the bounds, the
    polygon that [splitter] returns with the cubic spline is ordered
    counter-clockwise: its shoelace signed area is positive. *)
Theorem splitter_counter_clockwise params :
  length params = 10%nat → within_bounds params →
  ∃ polygon, splitter spline params = Ok polygon ∧ counter_clockwise polygon.
Proof.
  intros Hlen [_ Hb]%within_bounds_inv.
  destruct (splitter_signed_area spline params Hlen) as (polygon & Hp & Harea).
  exists polygon. split; [exact Hp|].
  unfold counter_clockwise. rewrite Harea.
  apply (outline_area_positive params Hlen).
  eapply Forall_impl; [exact Hb|]. by intros p [H _].
Qed.

End CubicArea.

Lemma trapezoid_sum_zip_pos (xs ys : list Qc) :
  length xs = length ys → (2 ≤ length xs)%nat →
  Sorted Qclt xs → Forall (λ y, 0 < y) ys →
  0 < trapezoid_sum (zip xs ys).
Proof.
  intros Hlen Hlx Hs Hpos.
  destruct xs as [|x0 [|x1 xs]]; cbn [length] in Hlx; try lia.
  destruct ys as [|y0 [|y1 ys]]; try discriminate Hlen.
  cbn [length] in Hlen.
  apply Forall_cons in Hpos as [H0 Hpos]. apply Forall_cons in Hpos as [H1 Hpos].
  change (zip (x0 :: x1 :: xs) (y0 :: y1 :: ys))
    with ((x0, y0) :: (x1, y1) :: zip xs ys).
  cbn [trapezoid_sum]. apply trapezoid_pos.
  - cbn [fmap list_fmap fst]. rewrite fst_zip by lia. exact Hs.
  - constructor; [exact H0|]. constructor; [exact H1|].
    apply Forall_forall. intros [x y] Hin.
    apply elem_of_zip_r in Hin. rewrite Forall_forall in Hpos. by apply Hpos.
Qed.

(** For any spline, the outline is counter-clockwise as soon as the sampled
    ordinates are positive. *)
Lemma positive_samples_counter_clockwise spline params :
  length params = 10%nat →
  Forall (λ y, 0 < y) (polygon_points_y spline params) →
  ∃ polygon, splitter spline params = Ok polygon ∧ counter_clockwise polygon.
Proof.
  intros Hlen Hpos.
  destruct (splitter_signed_area spline params Hlen) as (polygon & Hp & Harea).
  exists polygon. split; [exact Hp|].
  unfold counter_clockwise. rewrite Harea.
  apply trapezoid_sum_zip_pos.
  - rewrite polygon_points_x_length, polygon_points_y_length. reflexivity.
  - rewrite polygon_points_x_length. unfold n_interpolation_points. lia.
  - exact polygon_points_x_sorted.
  - exact Hpos.
Qed.

(** * Further properties of the script *)

(** ** The geometry function on any argument *)

Lemma interp1d_length_mismatch params :
  length params ≠ 10%nat →
  interp1d points_x (points_y params) = Raise LengthMismatch.
Proof.
  intros Hlen. unfold interp1d.
  rewrite points_x_length, points_y_length.
  rewrite decide_False by lia. reflexivity.
Qed.

Lemma splitter_point_count_aux spline params :
  length params = 10%nat →
  ∃ polygon, splitter spline params = Ok polygon ∧ length polygon = 200%nat.
Proof.
  intros Hlen. eexists. split; [exact (splitter_ok spline params Hlen)|].
  rewrite length_app, length_reverse, length_fmap, length_zip_with.
  rewrite polygon_points_x_length, polygon_points_y_length.
  unfold n_interpolation_points. lia.
Qed.

Lemma splitter_result_by_length_aux spline params :
  (length params = 10%nat
   ∧ ∃ polygon, splitter spline params = Ok polygon ∧ length polygon = 200%nat)
  ∨ (length params ≠ 10%nat ∧ splitter spline params = Raise LengthMismatch).
Proof.
  destruct (decide (length params = 10%nat)) as [Hlen|Hlen].
  - left. split; [exact Hlen | exact (splitter_point_count_aux spline params Hlen)].
  - right. split; [exact Hlen|].
    unfold splitter. rewrite (interp1d_length_mismatch params Hlen). reflexivity.
Qed.

(** X1.  [splitter] returns exactly on the vectors of 10 parameters; on any
    other vector it raises the length error of [interp1d], and it never
    raises anything else. *)
Theorem splitter_result_by_length spline params :
  (length params = 10%nat
   ∧ ∃ polygon, splitter spline params = Ok polygon ∧ length polygon = 200%nat)
  ∨ (length params ≠ 10%nat ∧ splitter spline params = Raise LengthMismatch).
Proof. exact (splitter_result_by_length_aux spline params). Qed.

Lemma fst_mirror (l : list (Qc * Qc)) : (mirror <$> l).*1 = l.*1.
Proof.
  rewrite <-list_fmap_compose. apply list_fmap_ext. intros i [x y] _. reflexivity.
Qed.

Lemma splitter_abscissae_aux spline params :
  length params = 10%nat →
  ∃ polygon, splitter spline params = Ok polygon
    ∧ polygon.*1 = reverse polygon_points_x ++ polygon_points_x.
Proof.
  intros Hlen. eexists. split; [exact (splitter_ok spline params Hlen)|].
  rewrite mirror_fmap, fmap_app, fmap_reverse, fst_mirror.
  rewrite fst_zip; [reflexivity|].
  rewrite polygon_points_x_length, polygon_points_y_length. lia.
Qed.

(** X2.  The abscissae of the outline do not depend on the parameters: two
    vectors of 10 parameters give polygons with the same abscissae, point by
    point, namely the sampled abscissae backwards and then forwards. *)
Theorem splitter_abscissae_fixed spline params1 params2 :
  length params1 = 10%nat → length params2 = 10%nat →
  ∃ polygon1 polygon2,
    splitter spline params1 = Ok polygon1
    ∧ splitter spline params2 = Ok polygon2
    ∧ polygon1.*1 = polygon2.*1
    ∧ polygon1.*1 = reverse polygon_points_x ++ polygon_points_x.
Proof.
  intros H1 H2.
  destruct (splitter_abscissae_aux spline params1 H1) as (p1 & Hp1 & Hx1).
  destruct (splitter_abscissae_aux spline params2 H2) as (p2 & Hp2 & Hx2).
  exists p1, p2. split; [exact Hp1|]. split; [exact Hp2|].
  split; [rewrite Hx1, Hx2; reflexivity | exact Hx1].
Qed.

(** X3.  Along the first 100 points of the outline the abscissa strictly
    decreases, along the last 100 it strictly increases: each half of the
    outline is the graph of a function of [x]. *)
Theorem splitter_halves_monotone spline params :
  length params = 10%nat →
  ∃ polygon, splitter spline params = Ok polygon
    ∧ Sorted (flip Qclt) (take 100 polygon).*1
    ∧ Sorted Qclt (drop 100 polygon).*1.
Proof.
  intros Hlen.
  destruct (splitter_abscissae_aux spline params Hlen) as (polygon & Hp & Hx).
  exists polygon. split; [exact Hp|].
  assert (length (reverse polygon_points_x) = 100%nat) as Hrev.
  { rewrite length_reverse. exact polygon_points_x_length. }
  rewrite fmap_take, fmap_drop, Hx.
  rewrite (take_app_length' _ _ 100), (drop_app_length' _ _ 100) by (symmetry; exact Hrev).
  split; [apply Sorted_reverse|]; exact polygon_points_x_sorted.
Qed.

(** X4.  For any spline, when the sampled ordinates are all positive the
    outline is ordered counter-clockwise, as the comment on line 64 asks. *)
Theorem splitter_counter_clockwise_if_positive spline params :
  length params = 10%nat →
  Forall (λ y, 0 < y) (polygon_points_y spline params) →
  ∃ polygon, splitter spline params = Ok polygon ∧ counter_clockwise polygon.
Proof. exact (positive_samples_counter_clockwise spline params). Qed.

(** X5.  The signed area of the outline is the sum of
    [(x_(k+1) - x_k) * (y_k + y_(k+1))] over the sampled curve: twice its
    integral by the trapezoid rule. *)
Theorem splitter_area_formula spline params :
  length params = 10%nat →
  ∃ polygon, splitter spline params = Ok polygon
    ∧ signed_area polygon
      = trapezoid_sum (zip polygon_points_x (polygon_points_y spline params)).
Proof. exact (splitter_signed_area spline params). Qed.

(** X6.  The bounds on the parameters do not bound the sampled curve
    (comment on lines 56-58): with the cubic spline there are parameters
    within the bounds for which sampled ordinates leave the bounds, and even
    become negative. *)
Theorem bounds_do_not_bound_samples :
  ¬ (∀ params, within_bounds params →
       Forall (λ y, dec 2 7 ≤ y ∧ y ≤ dec 8 7)
              (polygon_points_y CubicSpline.spline params))
  ∧ ¬ (∀ params, within_bounds params →
         Forall (λ y, 0 ≤ y) (polygon_points_y CubicSpline.spline params)).
Proof.
  assert (¬ Forall (λ y, 0 ≤ y) (polygon_points_y CubicSpline.spline lowest)) as Hneg.
  { intros Hall. pose proof lowest_sample_negative as Hex.
    apply Exists_exists in Hex as (y & Hy & Hlt).
    rewrite Forall_forall in Hall. exact (Qcle_not_lt _ _ (Hall y Hy) Hlt). }
  split; intros H; apply Hneg.
  - eapply Forall_impl; [exact (H lowest lowest_within_bounds)|].
    intros y [Hy _]. cbn beta in Hy.
    eapply Qcle_trans; [|exact Hy]. compute_done.
  - exact (H lowest lowest_within_bounds).
Qed.

(** ** The parameters the optimizer starts from *)

Lemma initial_points_y_within_bounds : within_bounds initial_points_y.
Proof. compute_done. Qed.



(** X8.  When the parameter file cannot be loaded, the polygon handed to the
    optimizer is consistent: its initial parameters lie within its bounds,
    one bound per parameter, and its geometry function returns a polygon of
    200 points on them. *)
Theorem fallback_start_is_admissible spline w e :
  loadtxt "2D_parameters.txt" w = Raise e →
  let polygon := make_polygon spline (load_prev_results w).1 in
  initial_params polygon = Array1 initial_points_y
  ∧ Forall2 (λ p b, b.1 ≤ p ∧ p ≤ b.2) initial_points_y (polygon_bounds polygon)
  ∧ length initial_points_y = length (polygon_bounds polygon)
  ∧ ∃ vertices, func polygon (initial_params polygon) = Ok vertices
                ∧ length vertices = 200%nat.
Proof.
  intros He polygon. subst polygon.
  unfold load_prev_results. rewrite He.
  cbn [fst make_polygon func initial_params polygon_bounds].
  split; [reflexivity|].
  split; [exact initial_points_y_within_bounds|].
  split.
  - unfold bounds. rewrite length_replicate. reflexivity.
  - destruct (splitter_point_count_aux spline initial_points_y initial_points_y_length)
      as (vertices & Hv & Hl).
    exists vertices. split; [exact Hv | exact Hl].
Qed.

(** ** What the script does to the files *)

Lemma load_prev_results_frame w :
  cwd (load_prev_results w).2 = cwd w ∧ files (load_prev_results w).2 = files w.
Proof. unfold load_prev_results. by destruct (loadtxt _ w). Qed.

(** X9.  Of its own the script changes one file only.  The optimizer is
    called in the directory and on the files the script was started with,
    and the script ends in the directory in which the optimizer returns,
    with the files the optimizer left, the saved one excepted, and with the
    console as the optimizer left it. *)
Theorem script_changes_one_file spline optimization_run w :
  let called := (load_prev_results w).2 in
  let returned := world_after_run spline optimization_run w in
  let ended := script spline optimization_run w in
  cwd called = cwd w ∧ files called = files w
  ∧ cwd ended = cwd returned ∧ stdout ended = stdout returned
  ∧ ∀ file, file ≠ resolve (cwd returned) "../2D_parameters.txt" →
      files ended !! file = files returned !! file.
Proof.
  intros called returned ended. subst called returned ended.
  destruct (load_prev_results_frame w) as [H1 H2].
  split; [exact H1|]. split; [exact H2|].
  rewrite script_unfold. unfold savetxt. cbn [cwd files stdout].
  split; [reflexivity|]. split; [reflexivity|].
  intros file Hfile. apply lookup_insert_ne. congruence.
Qed.

(** X10.  The file written is the file read exactly when the directory in
    which the optimizer returns is a direct subfolder of the directory the
    script was started in, or both are the root. *)
Theorem paths_coincide_iff (start returned : list string) :
  resolve returned "../2D_parameters.txt" = resolve start "2D_parameters.txt"
  ↔ (∃ d, returned = start ++ [d]) ∨ (returned = [] ∧ start = []).
Proof.
  rewrite resolve_write, resolve_read. split.
  - intros H. apply app_inj_tail in H as [H _].
    destruct (decide (returned = [])) as [->|Hne].
    + right. split; [reflexivity|]. cbn in H. by rewrite <-H.
    + left. destruct (exists_last Hne) as (l & d & ->). exists d.
      rewrite length_app in H. cbn [length] in H.
      replace (length l + 1 - 1)%nat with (length l) in H by lia.
      rewrite take_app_length in H. by rewrite H.
  - intros [[d ->]|[-> ->]]; [|reflexivity].
    rewrite length_app. cbn [length].
    replace (length start + 1 - 1)%nat with (length start) by lia.
    by rewrite take_app_length.
Qed.

(** X11.  When the optimizer returns in the directory it was called in,
    which is not the root, and has not touched the parameter file there, a
    later run started in that directory loads what this run loaded: the
    saved result is not seen. *)
Theorem later_run_repeats_start spline optimization_run w :
  cwd w ≠ [] →
  cwd (world_after_run spline optimization_run w) = cwd w →
  files (world_after_run spline optimization_run w) !! resolve (cwd w) "2D_parameters.txt"
  = files w !! resolve (cwd w) "2D_parameters.txt" →
  (load_prev_results (later_run w (script spline optimization_run w))).1
  = (load_prev_results w).1.
Proof.
  intros Hroot Hcwd Hfile.
  rewrite script_unfold. unfold load_prev_results, loadtxt, later_run, savetxt.
  cbn [cwd files]. rewrite Hcwd.
  rewrite lookup_insert_ne.
  - rewrite Hfile.
    destruct (files w !! _) as [[lines|?]|]; [|reflexivity|reflexivity].
    by destruct (decide (rectangular (nonblank lines))).
  - intros Heq. apply paths_coincide_iff in Heq as [[d Hd]|[Hnil _]].
    + apply (f_equal length) in Hd. rewrite length_app in Hd. cbn [length] in Hd. lia.
    + exact (Hroot Hnil).
Qed.

(** ** The export *)

Section ExportProps.

Variable spline : list Qc → list Qc → Qc → Qc.
Variable optimization_run :
  FunctionDefinedPolygon → World → (Qc * list Qc) * World.
Variable format_float : Qc → string.

Lemma saved_file_lookup w :
  files (script spline optimization_run w)
    !! resolve (cwd (world_after_run spline optimization_run w)) "../2D_parameters.txt"
  = Some (FloatText (column (best_params spline optimization_run w))).
Proof. rewrite script_unfold. unfold savetxt. cbn [files]. apply lookup_insert_eq. Qed.

(** X12.  When the script ends without exception, the polygon added to the
    CAD session is the geometry function applied to the vector that the
    parameter file now holds; it has 200 vertices, the vector has 10
    entries, and the session works in the directory the script was started
    in, whichever directory the optimizer returned in. *)
Theorem export_matches_saved_parameters w :
  let out := script_with_export spline optimization_run format_float w in
  exception out = None →
  ∃ v vertices,
    files (final_world out)
      !! resolve (cwd (world_after_run spline optimization_run w)) "../2D_parameters.txt"
    = Some (FloatText (column v))
    ∧ length v = 10%nat
    ∧ splitter spline v = Ok vertices
    ∧ length vertices = 200%nat
    ∧ session out
      = [ModeCd (cwd w); ModeBaseScript; ModeAddPoly vertices]
          ++ finish_commands format_float.
Proof.
  intros out. subst out. unfold script_with_export.
  pose proof (saved_file_lookup w) as Hsaved.
  destruct (splitter_result_by_length_aux spline (best_params spline optimization_run w))
    as [[Hlen (vertices & Hp & Hl)]|[Hlen Hr]].
  - rewrite Hp. cbn [exception final_world session]. intros _.
    exists (best_params spline optimization_run w), vertices.
    split; [exact Hsaved|]. split; [exact Hlen|]. split; [exact Hp|].
    split; [exact Hl | reflexivity].
  - rewrite Hr. cbn [exception]. discriminate.
Qed.

(** X13.  The parameters are saved before the export: when the best vector
    does not have 10 entries, the script stops with the length error of
    [interp1d], the parameter file holds the best vector all the same, and
    the CAD session has received its first two calls only: no polygon is
    added, nothing is saved or exported there. *)
Theorem parameters_saved_when_export_fails w :
  let out := script_with_export spline optimization_run format_float w in
  length (best_params spline optimization_run w) ≠ 10%nat →
  exception out = Some LengthMismatch
  ∧ files (final_world out)
      !! resolve (cwd (world_after_run spline optimization_run w)) "../2D_parameters.txt"
    = Some (FloatText (column (best_params spline optimization_run w)))
  ∧ session out = [ModeCd (cwd w); ModeBaseScript].
Proof.
  intros out Hlen. subst out. unfold script_with_export.
  destruct (splitter_result_by_length_aux spline (best_params spline optimization_run w))
    as [[Hlen' _]|[_ Hr]]; [contradiction|].
  rewrite Hr. cbn [exception final_world session].
  split; [reflexivity|]. split; [exact (saved_file_lookup w) | reflexivity].
Qed.

End ExportProps.

(** * Concrete runs *)

Lemma splitter_follows_spec_witness :
  length initial_points_y = 10%nat
  ∧ length (knots initial_points_y) = 12%nat
  ∧ length (evenly_spaced boundary_left.1 boundary_right.1 100) = 100%nat
  ∧ splitter CubicSpline.spline initial_points_y
    = Ok (splitter_spec CubicSpline.spline initial_points_y).
Proof.
  split; [vm_compute; reflexivity|].
  apply (splitter_follows_spec CubicSpline.spline initial_points_y).
  vm_compute; reflexivity.
Defined.

Lemma splitter_point_count_witness :
  length initial_points_y = 10%nat
  ∧ ∃ polygon, splitter CubicSpline.spline initial_points_y = Ok polygon
      ∧ length polygon = (2 * n_interpolation_points)%nat
      ∧ length polygon = 200%nat.
Proof.
  split; [vm_compute; reflexivity|].
  apply (splitter_point_count CubicSpline.spline initial_points_y).
  vm_compute; reflexivity.
Defined.

Lemma splitter_mirror_symmetry_witness :
  length initial_points_y = 10%nat
  ∧ ∃ polygon, splitter CubicSpline.spline initial_points_y = Ok polygon
      ∧ (∀ k x, polygon_points_x !! k = Some x →
           ∃ y, polygon !! (99 - k)%nat = Some (x, y)
                ∧ polygon !! (100 + k)%nat = Some (x, - y))
      ∧ (∀ i, (i < 200)%nat →
           ∃ x y, polygon !! i = Some (x, y)
                  ∧ polygon !! (199 - i)%nat = Some (x, - y)).
Proof.
  split; [vm_compute; reflexivity|].
  apply (splitter_mirror_symmetry CubicSpline.spline initial_points_y).
  vm_compute; reflexivity.
Defined.

Lemma splitter_counter_clockwise_witness :
  length initial_points_y = 10%nat
  ∧ within_bounds initial_points_y
  ∧ ∃ polygon, splitter CubicSpline.spline initial_points_y = Ok polygon
      ∧ counter_clockwise polygon.
Proof.
  assert (within_bounds initial_points_y) as Hb by compute_done.
  split; [vm_compute; reflexivity|]. split; [exact Hb|].
  apply (splitter_counter_clockwise initial_points_y); [vm_compute; reflexivity | exact Hb].
Defined.

Lemma resample_within_knot_range_witness :
  length initial_points_y = 10%nat
  ∧ ∃ polygon, splitter CubicSpline.spline initial_points_y = Ok polygon.
Proof.
  split; [vm_compute; reflexivity|].
  apply (resample_within_knot_range CubicSpline.spline initial_points_y).
  vm_compute; reflexivity.
Defined.



Lemma splitter_end_points_witness :
  ∃ polygon, splitter CubicSpline.spline lowest = Ok polygon
    ∧ polygon !! 0%nat = Some (dec 101 8, dec 6 7)
    ∧ polygon !! 99%nat = Some (- dec 101 8, dec 25 8)
    ∧ polygon !! 100%nat = Some (- dec 101 8, - dec 25 8)
    ∧ polygon !! 199%nat = Some (dec 101 8, - dec 6 7).
Proof.
  apply (splitter_end_points CubicSpline.spline lowest).
  - exact CubicSplineProps.spline_interpolates.
  - reflexivity.
Defined.

(** With the default parameters the first point of the lower half has an
    ordinate of magnitude [0.25e-6], not [0.6e-6]. *)
Lemma end_values_not_in_array_order :
  ∃ polygon, splitter CubicSpline.spline initial_points_y = Ok polygon
    ∧ ¬ ends_in_array_order polygon.
Proof.
  destruct (end_points CubicSpline.spline CubicSplineProps.spline_interpolates
              initial_points_y initial_points_y_length)
    as (polygon & Hp & _ & _ & H100 & _).
  exists polygon. split; [exact Hp|].
  intros Hclaim.
  destruct (Hclaim 100%nat 199%nat) as (p & q & Hp' & _ & Hmag & _).
  { apply list_elem_of_In. right. left. reflexivity. }
  rewrite H100 in Hp'. injection Hp' as <-. cbn [snd] in Hmag.
  apply (f_equal this) in Hmag. vm_compute in Hmag. discriminate Hmag.
Qed.

Lemma prev_results_fallback_witness :
  load_prev_results project = (Array1 initial_points_y, print notice project)
  ∧ load_prev_results project_with_file
    = (Array1 [dec 9 7; 0; - dec 1 6], project_with_file).
Proof.
  split.
  - apply (proj1 (proj2 (prev_results_fallback project)) FileNotFound).
    vm_compute. reflexivity.
  - apply (proj1 (proj2 (proj2 (prev_results_fallback project_with_file)))).
    vm_compute. reflexivity.
Defined.

Lemma prev_results_not_validated_witness :
  files project_with_file !! resolve (cwd project_with_file) "2D_parameters.txt"
  = Some (FloatText [[dec 9 7; 0; - dec 1 6]])
  ∧ rectangular (nonblank [[dec 9 7; 0; - dec 1 6]])
  ∧ initial_params
      (make_polygon CubicSpline.spline (load_prev_results project_with_file).1)
    = Array1 [dec 9 7; 0; - dec 1 6].
Proof.
  assert (files project_with_file !! resolve (cwd project_with_file) "2D_parameters.txt"
          = Some (FloatText [[dec 9 7; 0; - dec 1 6]])) as Hfile
    by (vm_compute; reflexivity).
  assert (rectangular (nonblank [[dec 9 7; 0; - dec 1 6]])) as Hrect
    by (repeat constructor).
  split; [exact Hfile|]. split; [exact Hrect|].
  apply (proj1 (proj2 (proj2 (proj2 (prev_results_not_validated CubicSpline.spline
                         project_with_file _ Hfile Hrect)))) [dec 9 7; 0; - dec 1 6]).
  - left. reflexivity.
  - cbn [length]. lia.
Defined.

Lemma saved_parameters_reused_from_subfolder_witness :
  cwd (world_after_run CubicSpline.spline (run_in_subfolder "opts_0" lowest) project)
  = cwd project ++ ["opts_0"]
  ∧ (load_prev_results
       (later_run project
          (script CubicSpline.spline (run_in_subfolder "opts_0" lowest) project))).1
    = Array1 (best_params CubicSpline.spline (run_in_subfolder "opts_0" lowest) project).
Proof.
  assert (cwd (world_after_run CubicSpline.spline
                 (run_in_subfolder "opts_0" lowest) project)
          = cwd project ++ ["opts_0"]) as Hcwd by (vm_compute; reflexivity).
  split; [exact Hcwd|].
  apply (proj2 (proj2 (proj2 (saved_parameters_reused_from_subfolder CubicSpline.spline
                         (run_in_subfolder "opts_0" lowest) project "opts_0" Hcwd)))).
  vm_compute. lia.
Defined.

(** With an optimizer that returns in the directory it was called in, the
    file written is not the file read, and a later run starts from the
    default vector instead of the saved one. *)
Lemma saved_parameters_not_reused_in_place :
  resolve (cwd (world_after_run CubicSpline.spline (run_in_place lowest) project))
          "../2D_parameters.txt"
  ≠ resolve (cwd project) "2D_parameters.txt"
  ∧ (load_prev_results
       (later_run project (script CubicSpline.spline (run_in_place lowest) project))).1
    = Array1 initial_points_y
  ∧ entries (load_prev_results
       (later_run project (script CubicSpline.spline (run_in_place lowest) project))).1
    ≠ best_params CubicSpline.spline (run_in_place lowest) project.
Proof.
  split; [|split].
  - vm_compute. discriminate.
  - vm_compute. reflexivity.
  - vm_compute. discriminate.
Qed.

Lemma splitter_abscissae_fixed_witness :
  ∃ polygon1 polygon2,
    splitter CubicSpline.spline initial_points_y = Ok polygon1
    ∧ splitter CubicSpline.spline lowest = Ok polygon2
    ∧ polygon1.*1 = polygon2.*1
    ∧ polygon1.*1 = reverse polygon_points_x ++ polygon_points_x.
Proof.
  apply (splitter_abscissae_fixed CubicSpline.spline initial_points_y lowest).
  - vm_compute. reflexivity.
  - reflexivity.
Defined.

Lemma splitter_halves_monotone_witness :
  ∃ polygon, splitter CubicSpline.spline lowest = Ok polygon
    ∧ Sorted (flip Qclt) (take 100 polygon).*1
    ∧ Sorted Qclt (drop 100 polygon).*1.
Proof. apply (splitter_halves_monotone CubicSpline.spline lowest). reflexivity. Defined.

Lemma splitter_counter_clockwise_if_positive_witness :
  Forall (λ y, 0 < y) (polygon_points_y CubicSpline.spline initial_points_y)
  ∧ ∃ polygon, splitter CubicSpline.spline initial_points_y = Ok polygon
      ∧ counter_clockwise polygon.
Proof.
  assert (Forall (λ y, 0 < y) (polygon_points_y CubicSpline.spline initial_points_y))
    as Hpos by compute_done.
  split; [exact Hpos|].
  apply (splitter_counter_clockwise_if_positive CubicSpline.spline initial_points_y);
    [vm_compute; reflexivity | exact Hpos].
Defined.

Lemma splitter_area_formula_witness :
  ∃ polygon, splitter CubicSpline.spline lowest = Ok polygon
    ∧ signed_area polygon
      = trapezoid_sum (zip polygon_points_x (polygon_points_y CubicSpline.spline lowest)).
Proof. apply (splitter_area_formula CubicSpline.spline lowest). reflexivity. Defined.


(** Ten numbers on two lines are no parameter vector either. *)
Lemma table_file_breaks_geometry :
  length (entries (load_prev_results project_with_table).1) = 10%nat
  ∧ func (make_polygon CubicSpline.spline (load_prev_results project_with_table).1)
      (initial_params
         (make_polygon CubicSpline.spline (load_prev_results project_with_table).1))
    = Raise DimensionMismatch.
Proof. split; vm_compute; reflexivity. Qed.

Lemma fallback_start_is_admissible_witness :
  loadtxt "2D_parameters.txt" project = Raise FileNotFound
  ∧ ∃ vertices,
      func (make_polygon CubicSpline.spline (load_prev_results project).1)
        (initial_params (make_polygon CubicSpline.spline (load_prev_results project).1))
      = Ok vertices
      ∧ length vertices = 200%nat.
Proof.
  assert (loadtxt "2D_parameters.txt" project = Raise FileNotFound) as Hload
    by (vm_compute; reflexivity).
  split; [exact Hload|].
  apply (fallback_start_is_admissible CubicSpline.spline project FileNotFound Hload).
Defined.

Lemma later_run_repeats_start_witness :
  cwd project ≠ []
  ∧ (load_prev_results
       (later_run project (script CubicSpline.spline (run_in_place [dec 3 7]) project))).1
    = (load_prev_results project).1.
Proof.
  assert (cwd project ≠ []) as Hroot by discriminate.
  split; [exact Hroot|].
  apply (later_run_repeats_start CubicSpline.spline (run_in_place [dec 3 7]) project Hroot);
    vm_compute; reflexivity.
Defined.

Lemma export_matches_saved_parameters_witness :
  exception (script_with_export CubicSpline.spline (run_in_subfolder "opts_0" lowest)
               (λ _, "") project) = None
  ∧ ∃ v vertices,
      files (final_world
               (script_with_export CubicSpline.spline (run_in_subfolder "opts_0" lowest)
                  (λ _, "") project))
        !! resolve (cwd (world_after_run CubicSpline.spline
                           (run_in_subfolder "opts_0" lowest) project))
                   "../2D_parameters.txt"
      = Some (FloatText (column v))
      ∧ length v = 10%nat
      ∧ splitter CubicSpline.spline v = Ok vertices
      ∧ length vertices = 200%nat
      ∧ session (script_with_export CubicSpline.spline (run_in_subfolder "opts_0" lowest)
                   (λ _, "") project)
        = [ModeCd (cwd project); ModeBaseScript; ModeAddPoly vertices]
            ++ finish_commands (λ _, "").
Proof.
  assert (exception (script_with_export CubicSpline.spline
                       (run_in_subfolder "opts_0" lowest) (λ _, "") project) = None)
    as Hnone by (vm_compute; reflexivity).
  split; [exact Hnone|].
  exact (export_matches_saved_parameters CubicSpline.spline
           (run_in_subfolder "opts_0" lowest) (λ _, "") project Hnone).
Defined.

Lemma parameters_saved_when_export_fails_witness :
  length (best_params CubicSpline.spline (run_in_place [dec 3 7]) project) ≠ 10%nat
  ∧ exception (script_with_export CubicSpline.spline (run_in_place [dec 3 7])
                 (λ _, "") project)
    = Some LengthMismatch.
Proof.
  assert (length (best_params CubicSpline.spline (run_in_place [dec 3 7]) project)
          ≠ 10%nat) as Hlen by (vm_compute; lia).
  split; [exact Hlen|].
  apply (parameters_saved_when_export_fails CubicSpline.spline (run_in_place [dec 3 7])
           (λ _, "") project Hlen).
Defined.
